(** * fact_checker.py: excerpt location and overlap rendering

    A shallow embedding of [build_position_map] and [highlight_text] of
    [src/fact_checker.py], and the properties of the annotation-stripping
    mapper, of excerpt location and of the segment partition.

    Conventions of the embedding.
    - A Python [str] is a list of Unicode code points ([N]); [len], slicing
      and indexing are the list operations.
    - Offsets are natural numbers.  [str.find] returns [None] where Python
      returns [-1].
    - A subscript that Python would reject with [IndexError] is an explicit
      [Raise IndexError] in the error monad [outcome].
    - An issue is a dictionary whose values have the types of the analyzer's
      schema; a key may be missing.
    - [str.title], used for the tooltip only, is a parameter of the
      rendering. *)

From stdpp Require Import base option list sorting strings gmap.
From Stdlib Require Import DecimalString.

(** ** Strings *)

Definition char : Type := N.
Definition str : Type := list char.

(** A string literal of the source, as code points. *)
Definition lit (s : string) : str :=
  (λ a, Ascii.N_of_ascii a) <$> String.list_ascii_of_string s.

(** [str(n)] for a non-negative integer. *)
Definition str_of_nat (n : nat) : str :=
  lit (NilEmpty.string_of_uint (Nat.to_uint n)).

(** Unicode whitespace, the class of [str.isspace], of [str.strip()] without
    argument and of [\s] in a [str] pattern. *)
Definition isspace (c : char) : bool :=
  ((9 <=? c) && (c <=? 13) || (28 <=? c) && (c <=? 32)
   || (c =? 133) || (c =? 160) || (c =? 5760)
   || (8192 <=? c) && (c <=? 8202)
   || (c =? 8232) || (c =? 8233) || (c =? 8239) || (c =? 8287)
   || (c =? 12288))%N.

Fixpoint lstrip (s : str) : str :=
  match s with
  | c :: s' => if isspace c then lstrip s' else s
  | [] => []
  end.

(** [s.strip()] *)
Definition strip (s : str) : str := reverse (lstrip (reverse (lstrip s))).

(** [s.startswith(p)], and the rest of [s] after [p]. *)
Fixpoint after_prefix (p s : str) : option str :=
  match p, s with
  | [], _ => Some s
  | a :: p', b :: s' => if (a =? b)%N then after_prefix p' s' else None
  | _ :: _, [] => None
  end.

(** The scan behind [s.find(sub)]: [s] is the part of the string from
    offset [i] on. *)
Fixpoint find_from (i : nat) (s sub : str) : option nat :=
  match after_prefix sub s with
  | Some _ => Some i
  | None =>
      match s with
      | [] => None
      | _ :: s' => find_from (S i) s' sub
      end
  end.

(** [s.find(sub)]: the lowest offset at which [sub] occurs in [s]. *)
Definition find (s sub : str) : option nat := find_from 0 s sub.

(** [sub] occurs in [s] at offset [p]. *)
Definition occurs_at (s sub : str) (p : nat) : Prop :=
  take (length sub) (drop p s) = sub.

(** ** The annotation pattern

    [re.match(r'\s*\(https?://[^\)]+\)', s)]: the length of the match at the
    start of [s], if there is one.  Every quantifier of the pattern is
    followed by a character that it cannot itself consume, so the greedy
    choice is the only one that can succeed. *)

Fixpoint span (P : char → bool) (s : str) : nat :=
  match s with
  | c :: s' => if P c then S (span P s') else 0
  | [] => 0
  end.

Definition not_rparen (c : char) : bool := negb (c =? 41)%N.

Definition url_match (s : str) : option nat :=
  let ws := span isspace s in                        (* \s*        *)
  s1 ← after_prefix (lit "(http") (drop ws s);       (* \(http     *)
  let opt_s := match s1 with 115%N :: _ => 1 | _ => 0 end in   (* s?  *)
  s3 ← after_prefix (lit "://") (drop opt_s s1);     (* ://        *)
  let k := span not_rparen s3 in                     (* [^\)]+     *)
  match k, drop k s3 with
  | S _, 41%N :: _ => Some (ws + 5 + opt_s + 3 + k + 1)  (* \)     *)
  | _, _ => None
  end.

(** ** build_position_map *)

(** The [while i < len(text)] loop.  [drop i text] is [text[i:]]; it is empty
    exactly when the loop test fails, and otherwise its head is [text[i]].
    Each iteration uses one unit of [fuel]. *)
Fixpoint build_loop (fuel : nat) (text : str) (i : nat)
    (stripped : str) (position_map : list nat) : option (str * list nat) :=
  match fuel with
  | 0 => None
  | S fuel' =>
      match drop i text with
      | [] => Some (stripped, position_map)
      | c :: _ =>
          match url_match (drop i text) with
          | Some n => build_loop fuel' text (i + n) stripped position_map
          | None =>
              build_loop fuel' text (i + 1) (stripped ++ [c]) (position_map ++ [i])
          end
      end
  end.

(** [build_position_map(text)].  The loop runs at most [len(text)] iterations
    before its test fails, so the default is never taken. *)
Definition build_position_map (text : str) : str * list nat :=
  default ([], []) (build_loop (S (length text)) text 0 [] []).


(** ** Exceptions *)

Inductive exn : Type := IndexError.

Inductive outcome (A : Type) : Type :=
  | Ok (a : A)
  | Raise (e : exn).
Arguments Ok {A} a.
Arguments Raise {A} e.

Definition obind {A B} (m : outcome A) (k : A → outcome B) : outcome B :=
  match m with
  | Ok a => k a
  | Raise e => Raise e
  end.

Notation "x ←! m ; k" := (obind m (λ x, k))
  (at level 20, m at level 100, k at level 200, right associativity).
Notation "' p ←! m ; k" := (obind m (λ p, k))
  (at level 20, p pattern, m at level 100, k at level 200, right associativity).

(** [l[i]] for [i >= 0]. *)
Definition subscript {A} (l : list A) (i : nat) : outcome A :=
  match l !! i with
  | Some x => Ok x
  | None => Raise IndexError
  end.

(** [[f(x) for x in l]], stopping at the first exception. *)
Fixpoint for_each {A B} (f : A → outcome B) (l : list A) : outcome (list B) :=
  match l with
  | [] => Ok []
  | x :: l' => y ←! f x; ys ←! for_each f l'; Ok (y :: ys)
  end.

(** ** Data model *)

(** An issue as the analyzer supplies it: a dictionary in which any of the
    four keys may be missing ([None]). *)
Record issue : Type := Issue {
  i_excerpt : option str;        (* 'excerpt' *)
  i_type    : option str;        (* 'type'    *)
  i_issue   : option str;        (* 'issue'   *)
  i_sources : option (list str)  (* 'sources' *)
}.

(** An entry of [highlight_ranges]. *)
Record highlight_range : Type := HighlightRange {
  hr_start    : nat;
  hr_end      : nat;
  issue_index : nat;
  issue_type  : str;
  explanation : str;
  sources     : list str
}.

(** An entry of [segments]. *)
Record segment : Type := Segment {
  seg_start  : nat;
  seg_end    : nat;
  seg_text   : str;
  seg_issues : list highlight_range
}.

#[global] Instance highlight_range_eq_dec : EqDecision highlight_range.
Proof. solve_decision. Defined.
#[global] Instance segment_eq_dec : EqDecision segment.
Proof. solve_decision. Defined.

(** ** highlight_text: visibility filter (lines 155-168) *)

Definition get_type (issue : issue) : str :=
  default (lit "questionable") (i_type issue).

Definition hidden (show_misleading show_incomplete show_questionable : bool)
    (issue_type : str) : bool :=
  bool_decide (issue_type = lit "misleading") && negb show_misleading
  || bool_decide (issue_type = lit "incomplete") && negb show_incomplete
  || bool_decide (issue_type = lit "questionable") && negb show_questionable.

(** [filtered_issues]: the visible issues, each paired with its
    ['_original_index'].  [idx] is the index of the head of [issues]. *)
Fixpoint filter_issues (show_misleading show_incomplete show_questionable : bool)
    (idx : nat) (issues : list issue) : list (nat * issue) :=
  match issues with
  | [] => []
  | issue :: rest =>
      let tail :=
        filter_issues show_misleading show_incomplete show_questionable (S idx) rest in
      if hidden show_misleading show_incomplete show_questionable (get_type issue)
      then tail
      else (idx, issue) :: tail
  end.

(** ** highlight_text: locating one excerpt (lines 200-218) *)

(** The values of [start_pos] and [end_pos] after the two strategies. *)
Definition locate (original_text original_stripped : str) (pos_map : list nat)
    (excerpt : str) : outcome (option nat * option nat) :=
  match find original_text excerpt with
  | Some pos => Ok (Some pos, Some (pos + length excerpt))
  | None =>
      let excerpt_stripped := (build_position_map excerpt).1 in
      match find original_stripped excerpt_stripped with
      | Some pos =>
          if bool_decide (0 < length excerpt_stripped) then
            start_pos ←! subscript pos_map pos;
            let end_pos_stripped :=
              (pos + length excerpt_stripped) `min` length pos_map in
            if bool_decide (0 < end_pos_stripped)
               && bool_decide (end_pos_stripped ≤ length pos_map) then
              last ←! subscript pos_map (end_pos_stripped - 1);
              Ok (Some start_pos, Some (last + 1))
            else Ok (Some start_pos, None)
          else Ok (None, None)
      | None => Ok (None, None)
      end
  end.

(** The trimmed excerpt of an issue. *)
Definition get_excerpt (issue : issue) : str := strip (default [] (i_excerpt issue)).

(** The dictionary appended to [highlight_ranges] (lines 221-228) for an
    issue located at [start_pos], [end_pos]. *)
Definition range_of (original_idx : nat) (issue : issue) (start_pos end_pos : nat)
    : highlight_range :=
  {| hr_start := start_pos; hr_end := end_pos;
     issue_index := original_idx;
     issue_type := get_type issue;
     explanation := default (lit "No explanation") (i_issue issue);
     sources := default [] (i_sources issue) |}.

(** The loop over [filtered_issues] that fills [highlight_ranges]
    (lines 188-228). *)
Fixpoint locate_all (original_text original_stripped : str) (pos_map : list nat)
    (filtered_issues : list (nat * issue)) : outcome (list highlight_range) :=
  match filtered_issues with
  | [] => Ok []
  | (original_idx, issue) :: rest =>
      let excerpt := get_excerpt issue in
      match excerpt with
      | [] => locate_all original_text original_stripped pos_map rest
      | _ :: _ =>
          '(start_pos, end_pos) ←!
            locate original_text original_stripped pos_map excerpt;
          found ←! locate_all original_text original_stripped pos_map rest;
          match start_pos, end_pos with
          | Some s, Some e => Ok (range_of original_idx issue s e :: found)
          | _, _ => Ok found
          end
      end
  end.

(** ** highlight_text: the partition (lines 230-255) *)

(** [highlight_ranges.sort(key=lambda x: x['start'])].  [list.sort] is
    stable; so is this insertion sort, which places an element before the
    first one whose key is not smaller. *)
Fixpoint insert_by_start (x : highlight_range) (l : list highlight_range)
    : list highlight_range :=
  match l with
  | [] => [x]
  | y :: l' =>
      if bool_decide (hr_start x ≤ hr_start y) then x :: l
      else y :: insert_by_start x l'
  end.

Definition sort_by_start (l : list highlight_range) : list highlight_range :=
  foldr insert_by_start [] l.

(** The inner loop [for pos in range(hr['start'], hr['end'])]. *)
Definition cover (position_issues : gmap nat (list highlight_range))
    (hr : highlight_range) : gmap nat (list highlight_range) :=
  foldl (λ m pos, <[pos := default [] (m !! pos) ++ [hr]]> m)
        position_issues (seq (hr_start hr) (hr_end hr - hr_start hr)).

(** [position_issues] *)
Definition build_position_issues (highlight_ranges : list highlight_range)
    : gmap nat (list highlight_range) :=
  foldl cover ∅ highlight_ranges.

(** [sorted(set(l))] *)
Definition sorted_set (l : list nat) : list nat :=
  merge_sort (≤) (elements (list_to_set l : gset nat)).

(** [positions] *)
Definition positions (original_text : str) (highlight_ranges : list highlight_range)
    : list nat :=
  sorted_set ([0; length original_text]
              ++ (hr_start <$> highlight_ranges)
              ++ (hr_end <$> highlight_ranges)).

(** The dictionary appended to [segments] (lines 250-255) for the positions
    [start] and [end]; [original_text[start:end]] is a [take] of a [drop]. *)
Definition make_segment (original_text : str)
    (position_issues : gmap nat (list highlight_range)) (start end_ : nat) : segment :=
  {| seg_start := start; seg_end := end_;
     seg_text := take (end_ - start) (drop start original_text);
     seg_issues := default [] (position_issues !! start) |}.

(** [segments] *)
Definition build_segments (original_text : str)
    (position_issues : gmap nat (list highlight_range)) (positions : list nat)
    : outcome (list segment) :=
  for_each
    (λ i,
       start ←! subscript positions i;
       end_ ←! subscript positions (i + 1);
       Ok (make_segment original_text position_issues start end_))
    (seq 0 (length positions - 1)).

(** Lines 230-255: from [highlight_ranges] to [segments]. *)
Definition partition (original_text : str) (highlight_ranges : list highlight_range)
    : outcome (list segment) :=
  let highlight_ranges := sort_by_start highlight_ranges in
  build_segments original_text
    (build_position_issues highlight_ranges)
    (positions original_text highlight_ranges).

(** Lines 173-255: the segments computed for a non-empty [filtered_issues]. *)
Definition highlight_segments (original_text : str)
    (filtered_issues : list (nat * issue)) : outcome (list segment) :=
  let '(original_stripped, pos_map) := build_position_map original_text in
  highlight_ranges ←!
    locate_all original_text original_stripped pos_map filtered_issues;
  partition original_text highlight_ranges.


(** ** highlight_text: presentation (lines 175-185 and 257-308) *)

Definition nl : str := [10%N].
Definition dquote : str := [34%N].

(** [sep.join(parts)] *)
Fixpoint join (sep : str) (parts : list str) : str :=
  match parts with
  | [] => []
  | [p] => p
  | p :: rest => p ++ sep ++ join sep rest
  end.

(** [s.replace(old, new)] for a one-character [old]. *)
Definition replace_char (old : char) (new : str) (s : str) : str :=
  s ≫= λ c, if (c =? old)%N then new else [c].

(** [colors.get(issue_type, '#fff4cc')] *)
Definition colors_get (issue_type : str) : str :=
  if bool_decide (issue_type = lit "misleading") then lit "#ffcccc"
  else if bool_decide (issue_type = lit "questionable") then lit "#fff4cc"
  else if bool_decide (issue_type = lit "incomplete") then lit "#cce5ff"
  else lit "#fff4cc".

(** [border_colors.get(issue_type, '#333')] *)
Definition border_colors_get (issue_type : str) : str :=
  if bool_decide (issue_type = lit "misleading") then lit "#ff0000"
  else if bool_decide (issue_type = lit "questionable") then lit "#ffa500"
  else if bool_decide (issue_type = lit "incomplete") then lit "#0066cc"
  else lit "#333".

(** [bg_color], for the primary issue [issues_data[0]]. *)
Definition bg_color (primary : highlight_range) : str :=
  colors_get (issue_type primary).

(** [border_style] *)
Definition border_style (issues_data : list highlight_range) : str :=
  if bool_decide (1 < length issues_data) then
    let border_colors_list :=
      (λ iss, border_colors_get (issue_type iss)) <$> drop 1 issues_data in
    match border_colors_list with
    | c :: _ => lit "2px solid " ++ c
    | [] => lit "2px solid transparent"
    end
  else lit "2px solid transparent".

(** [badge_text] *)
Definition badge_text (primary : highlight_range) (issues_data : list highlight_range) : str :=
  if bool_decide (length issues_data = 1)
  then str_of_nat (issue_index primary + 1)
  else str_of_nat (length issues_data).

(** [badge_type] *)
Definition badge_type (issues_data : list highlight_range) : str :=
  if bool_decide (length issues_data = 1) then lit "single" else lit "multiple".

(** [issue_ids] *)
Definition issue_ids (issues_data : list highlight_range) : str :=
  join (lit ",") ((λ d, str_of_nat (issue_index d)) <$> issues_data).

Section Rendering.

(** [str.title] belongs to the Python library; the development is
    parametric in it. *)
Variable title : str → str.

(** The lines that the [src_idx, src] loop adds, [src_idx] counting from
    the given value. *)
Fixpoint source_lines (src_idx : nat) (srcs : list str) : list str :=
  match srcs with
  | [] => []
  | src :: rest =>
      (str_of_nat src_idx ++ lit ". " ++ src) :: source_lines (S src_idx) rest
  end.

(** [tooltip_parts]: the loop over [enumerate(issues_data)]; [n] is
    [len(issues_data)] and [idx] the index of the head of [rest]. *)
Fixpoint tooltip_parts (n idx : nat) (rest : list highlight_range) : list str :=
  match rest with
  | [] => []
  | issue_data :: rest' =>
      [lit "Issue #" ++ str_of_nat (issue_index issue_data + 1) ++ lit " ("
         ++ title (issue_type issue_data) ++ lit "):";
       explanation issue_data]
      ++ match sources issue_data with
         | [] => []
         | _ :: _ => (nl ++ lit "Sources:") :: source_lines 1 (sources issue_data)
         end
      ++ (if bool_decide (idx < n - 1) then [nl ++ lit "---" ++ nl] else [])
      ++ tooltip_parts n (S idx) rest'
  end.

(** [escaped_tooltip] *)
Definition escaped_tooltip (issues_data : list highlight_range) : str :=
  let tooltip_text := join nl (tooltip_parts (length issues_data) 0 issues_data) in
  replace_char 39%N (lit "&#39;") (replace_char 34%N (lit "&quot;") tooltip_text).

(** The [<mark ...>] element of a segment whose [issues] start with
    [primary]. *)
Definition render_mark (primary : highlight_range) (segment : segment) : str :=
  let issues_data := seg_issues segment in
  let indent := lit "                " in
  lit "<mark" ++ nl
  ++ indent ++ lit "class=" ++ dquote ++ lit "fact-issue" ++ dquote ++ nl
  ++ indent ++ lit "data-issue-ids=" ++ dquote ++ issue_ids issues_data ++ dquote ++ nl
  ++ indent ++ lit "data-tooltip=" ++ dquote ++ escaped_tooltip issues_data ++ dquote ++ nl
  ++ indent ++ lit "data-badge-text=" ++ dquote ++ badge_text primary issues_data ++ dquote ++ nl
  ++ indent ++ lit "data-badge-type=" ++ dquote ++ badge_type issues_data ++ dquote ++ nl
  ++ indent ++ lit "style=" ++ dquote ++ lit "background-color: " ++ bg_color primary
  ++ lit "; color: #000; padding: 2px 4px; border-radius: 3px; cursor: pointer; border: "
  ++ border_style issues_data ++ lit "; transition: all 0.2s ease;" ++ dquote ++ nl
  ++ indent ++ lit ">" ++ seg_text segment ++ lit "</mark>".

(** One entry of [html_parts]. *)
Definition render_segment (segment : segment) : str :=
  match seg_issues segment with
  | [] => seg_text segment
  | primary :: _ => render_mark primary segment
  end.

(** [''.join(html_parts)] *)
Definition render (segments : list segment) : str :=
  concat (render_segment <$> segments).

(** [highlight_text(original_text, issues, show_misleading, show_incomplete,
    show_questionable)] *)
Definition highlight_text (original_text : str) (issues : list issue)
    (show_misleading show_incomplete show_questionable : bool) : outcome str :=
  match issues with
  | [] => Ok original_text
  | _ :: _ =>
      let filtered_issues :=
        filter_issues show_misleading show_incomplete show_questionable 0 issues in
      match filtered_issues with
      | [] => Ok original_text
      | _ :: _ =>
          segments ←! highlight_segments original_text filtered_issues;
          Ok (render segments)
      end
  end.

End Rendering.

(** ** The issue listing (lines 738-776) *)

(** [enumerate(l)] *)
Definition enumerate {A} (l : list A) : list (nat * A) :=
  zip (seq 0 (length l)) l.

(** [type_order.get(issue_type, 3)] *)
Definition type_order_get (issue_type : str) : nat :=
  if bool_decide (issue_type = lit "misleading") then 0
  else if bool_decide (issue_type = lit "incomplete") then 1
  else if bool_decide (issue_type = lit "questionable") then 2
  else 3.

(** [sorted(l, key=key)] for integer keys.  [sorted] is stable; so is this
    insertion sort, which places an element before the first one whose key
    is not smaller. *)
Fixpoint insert_by_key {A} (key : A → nat) (x : A) (l : list A) : list A :=
  match l with
  | [] => [x]
  | y :: l' =>
      if bool_decide (key x ≤ key y) then x :: l
      else y :: insert_by_key key x l'
  end.

Definition sorted_by_key {A} (key : A → nat) (l : list A) : list A :=
  foldr (insert_by_key key) [] l.

(** The key of the listing: [type_order.get(x[1].get('type',
    'questionable'), 3)]. *)
Definition listing_key (x : nat * issue) : nat := type_order_get (get_type x.2).

(** [sorted_issues] *)
Definition sorted_issues (issues : list issue) : list (nat * issue) :=
  sorted_by_key listing_key (enumerate issues).

(** The quoted excerpt of a listed issue (lines 745 and 776):
    [excerpt[:100]] followed by ['...'] if the excerpt is longer. *)
Definition excerpt_preview (issue : issue) : str :=
  let excerpt := default (lit "N/A") (i_excerpt issue) in
  take 100 excerpt ++ (if bool_decide (100 < length excerpt) then lit "..." else []).

(** * Vocabulary of the properties *)

(** What the loop maintains: [stripped] and [position_map] run in parallel,
    every recorded offset lies before the cursor and holds the recorded
    character, and the offsets increase. *)
Record mapper_inv (text : str) (i : nat) (stripped : str) (position_map : list nat)
    : Prop := MapperInv {
  inv_chars : Forall2 (λ c j, text !! j = Some c) stripped position_map;
  inv_below : Forall (λ j, j < i) position_map;
  inv_incr  : StronglySorted lt position_map
}.

(** The segments of the consecutive pairs of a list of positions. *)
Fixpoint adjacent (original_text : str)
    (position_issues : gmap nat (list highlight_range)) (positions : list nat)
    : list segment :=
  match positions with
  | [] => []
  | start :: rest =>
      match rest with
      | [] => []
      | end_ :: _ =>
          make_segment original_text position_issues start end_
          :: adjacent original_text position_issues rest
      end
  end.

(** [segs] tile the interval from [a] to [b]: the first starts at [a], each
    is non-empty and starts where the one before it ends, the last ends at
    [b]. *)
Fixpoint tiles (a : nat) (segs : list segment) (b : nat) : Prop :=
  match segs with
  | [] => a = b
  | s :: rest => seg_start s = a ∧ seg_start s < seg_end s ∧ tiles (seg_end s) rest b
  end.

(** The range [hr] contains the offset [pos]. *)
Definition covers (pos : nat) (hr : highlight_range) : Prop :=
  hr_start hr ≤ pos < hr_end hr.

#[global] Instance covers_dec pos hr : Decision (covers pos hr).
Proof. unfold covers. apply _. Defined.

(** The order that the stable sort by ['start'] gives to ranges that were
    appended by ascending ['issue_index']: by start, and by index among
    ranges of equal start. *)
Definition by_start_then_index (x y : highlight_range) : Prop :=
  hr_start x < hr_start y
  ∨ (hr_start x = hr_start y ∧ issue_index x < issue_index y).

(** The order in which [locate_all] appends ranges. *)
Definition by_index (x y : highlight_range) : Prop := issue_index x < issue_index y.

#[global] Instance by_start_then_index_dec x y : Decision (by_start_then_index x y).
Proof. unfold by_start_then_index. apply _. Defined.

(** The order of [filtered_issues]. *)
Definition fst_lt (a b : nat * issue) : Prop := a.1 < b.1.

(** A range of [highlight_ranges] and the issue it was located for. *)
Definition located_for (original_text : str) (entry : nat * issue)
    (hr : highlight_range) : Prop :=
  issue_index hr = entry.1
  ∧ issue_type hr = get_type entry.2
  ∧ get_excerpt entry.2 ≠ []
  ∧ locate original_text (build_position_map original_text).1
      (build_position_map original_text).2 (get_excerpt entry.2)
    = Ok (Some (hr_start hr), Some (hr_end hr)).

(** A range that lies within the text. *)
Definition within (original_text : str) (hr : highlight_range) : Prop :=
  hr_start hr ≤ length original_text ∧ hr_end hr ≤ length original_text.

(** The claim as the specification states it: in every segment the covering
    issues are listed by ascending [issue_index]. *)
Definition covering_lists_by_issue_index : Prop :=
  ∀ original_text issues sm si sq segments,
    highlight_segments original_text (filter_issues sm si sq 0 issues) = Ok segments →
    Forall (λ s, StronglySorted lt (issue_index <$> seg_issues s)) segments.

(** The canonical annotated sentence and its excerpt. *)
Definition paris_text : str := lit "Paris is the capital (https://example.com/1).".
Definition paris_excerpt : str := lit "Paris is the capital.".

(** An issue that [locate_all] has no range for: its trimmed excerpt is
    empty, or occurs neither in the original text nor, in its logical form,
    in the logical text. *)
Definition unlocatable (original_text : str) (iss : issue) : Prop :=
  get_excerpt iss = []
  ∨ ((∀ p, ¬ occurs_at original_text (get_excerpt iss) p)
     ∧ ∀ p, ¬ occurs_at (build_position_map original_text).1
                        (build_position_map (get_excerpt iss)).1 p).

(** The single plain segment that spans a text. *)
Definition whole_text_segment (original_text : str) : segment :=
  {| seg_start := 0; seg_end := length original_text;
     seg_text := original_text; seg_issues := [] |}.

(** The order of the issue listing: by rank of the type, and by index among
    issues of equal rank. *)
Definition by_rank_then_index (x y : nat * issue) : Prop :=
  listing_key x < listing_key y
  ∨ (listing_key x = listing_key y ∧ x.1 < y.1).

(** An issue that [highlight_text] can highlight: it passes the visibility
    filter and [locate] finds a range for its excerpt. *)
Definition highlightable (original_text : str) (sm si sq : bool) (iss : issue)
    : Prop :=
  hidden sm si sq (get_type iss) = false
  ∧ get_excerpt iss ≠ []
  ∧ ∃ s e,
      locate original_text (build_position_map original_text).1
        (build_position_map original_text).2 (get_excerpt iss)
      = Ok (Some s, Some e).

(** An annotation run: whitespace, then a parenthesised [http://] or
    [https://] URL of at least one character, none of them a closing
    parenthesis. *)
Definition annotation_run (run : str) : Prop :=
  ∃ (ws scheme_s url : str),
    run = ws ++ lit "(http" ++ scheme_s ++ lit "://" ++ url ++ lit ")"
    ∧ Forall (λ c, isspace c = true) ws
    ∧ (scheme_s = [] ∨ scheme_s = lit "s")
    ∧ url ≠ []
    ∧ Forall (λ c, c ≠ 41%N) url.

(** One iteration of the loop of [build_position_map] at the cursor [i]:
    the next cursor and the characters appended to [stripped]; [None] when
    the loop test fails. *)
Definition loop_step (text : str) (i : nat) : option (nat * str) :=
  match drop i text with
  | [] => None
  | c :: _ =>
      match url_match (drop i text) with
      | Some n => Some (i + n, [])
      | None => Some (i + 1, [c])
      end
  end.

(** [k] iterations from the cursor [i] (fewer if the loop stops before):
    the cursor reached and the characters appended on the way. *)
Fixpoint run (k : nat) (text : str) (i : nat) : nat * str :=
  match k with
  | 0 => (i, [])
  | S k' =>
      match loop_step text i with
      | None => (i, [])
      | Some (j, out) => let r := run k' text j in (r.1, out ++ r.2)
      end
  end.

(** The [<mark>] element that lines 299-306 write, as a function of the
    values interpolated into it: the issue ids, the escaped tooltip, the
    badge text, the badge type, the background colour, the border style and
    the text of the segment. *)
Definition mark_element (ids tooltip badge kind background border text : str) : str :=
  let indent := lit "                " in
  lit "<mark" ++ nl
  ++ indent ++ lit "class=" ++ dquote ++ lit "fact-issue" ++ dquote ++ nl
  ++ indent ++ lit "data-issue-ids=" ++ dquote ++ ids ++ dquote ++ nl
  ++ indent ++ lit "data-tooltip=" ++ dquote ++ tooltip ++ dquote ++ nl
  ++ indent ++ lit "data-badge-text=" ++ dquote ++ badge ++ dquote ++ nl
  ++ indent ++ lit "data-badge-type=" ++ dquote ++ kind ++ dquote ++ nl
  ++ indent ++ lit "style=" ++ dquote ++ lit "background-color: " ++ background
  ++ lit "; color: #000; padding: 2px 4px; border-radius: 3px; cursor: pointer; border: "
  ++ border ++ lit "; transition: all 0.2s ease;" ++ dquote ++ nl
  ++ indent ++ lit ">" ++ text ++ lit "</mark>".

(** * Properties *)

(** ** Sorted lists *)

Lemma sorted_lookup_lt {A} (R : relation A) (l : list A) i j a b :
  StronglySorted R l → i < j → l !! i = Some a → l !! j = Some b → R a b.
Proof.
  intros Hs. revert i j. induction Hs as [|x l Hs IH Hx]; intros i j Hij Ha Hb.
  { by rewrite lookup_nil in Ha. }
  destruct j as [|j]; [lia|]. simpl in Hb.
  destruct i as [|i]; simpl in Ha.
  - simplify_eq. rewrite Forall_forall in Hx.
    apply Hx. by eapply list_elem_of_lookup_2.
  - apply (IH i j); [lia|done..].
Qed.

(** ** The mapper *)

Lemma url_match_pos s n : url_match s = Some n → 0 < n.
Proof.
  unfold url_match. intros H.
  destruct (after_prefix (lit "(http") _) as [s1|]; [|done].
  cbn [mbind option_bind] in H.
  destruct (after_prefix (lit "://") _) as [s3|]; [|done].
  cbn [mbind option_bind] in H.
  repeat case_match; simplify_eq; lia.
Qed.

Lemma mapper_inv_skip text i n stripped position_map :
  mapper_inv text i stripped position_map →
  mapper_inv text (i + n) stripped position_map.
Proof.
  intros [Hc Hb Hs]. split; [done| |done].
  eapply Forall_impl; [exact Hb|]. simpl. lia.
Qed.

Lemma mapper_inv_emit text i c rest stripped position_map :
  drop i text = c :: rest →
  mapper_inv text i stripped position_map →
  mapper_inv text (i + 1) (stripped ++ [c]) (position_map ++ [i]).
Proof.
  intros Hd [Hc Hb Hs]. split.
  - apply Forall2_app; [done|]. constructor; [|done].
    pose proof (lookup_drop text i 0) as Hl.
    rewrite Hd, Nat.add_0_r in Hl. done.
  - apply Forall_app. split.
    + eapply Forall_impl; [exact Hb|]. simpl. lia.
    + constructor; [lia|done].
  - apply StronglySorted_app_2; [| done | repeat constructor].
    intros x1 x2 Hx1 ->%list_elem_of_singleton.
    rewrite Forall_forall in Hb. by apply Hb.
Qed.

Lemma build_loop_spec fuel text i stripped position_map :
  length text - i < fuel →
  mapper_inv text i stripped position_map →
  ∃ logical pmap,
    build_loop fuel text i stripped position_map = Some (logical, pmap)
    ∧ ∃ i', mapper_inv text i' logical pmap.
Proof.
  revert i stripped position_map.
  induction fuel as [|fuel IH]; intros i stripped position_map Hfuel Hinv; [lia|].
  cbn [build_loop]. destruct (drop i text) as [|c rest] eqn:Hd; [by eauto|].
  assert (i < length text) as Hi.
  { apply (f_equal length) in Hd. rewrite length_drop in Hd. simpl in Hd. lia. }
  destruct (url_match (c :: rest)) as [n|] eqn:Hm.
  - apply url_match_pos in Hm.
    apply IH; [lia|]. by apply mapper_inv_skip.
  - apply IH; [lia|]. by eapply mapper_inv_emit.
Qed.

Lemma build_position_map_inv text :
  build_loop (S (length text)) text 0 [] [] = Some (build_position_map text)
  ∧ ∃ i, mapper_inv text i (build_position_map text).1 (build_position_map text).2.
Proof.
  destruct (build_loop_spec (S (length text)) text 0 [] []) as (l & m & Hrun & Hinv).
  { lia. }
  { split; constructor. }
  unfold build_position_map. rewrite Hrun. done.
Qed.

(** C2. For every text, the loop of [build_position_map] stops within
    [len(text) + 1] tests of its condition, and the pair
    [(logical, map)] it returns satisfies: [len(logical) = len(map)]; [map] is
    strictly increasing; and [text[map[i]] = logical[i]] at every index [i]
    of [logical]. *)
Theorem build_position_map_roundtrip (text : str) :
  ∃ logical pmap,
    build_loop (S (length text)) text 0 [] [] = Some (logical, pmap)
    ∧ build_position_map text = (logical, pmap)
    ∧ length logical = length pmap
    ∧ (∀ i j a b, i < j → pmap !! i = Some a → pmap !! j = Some b → a < b)
    ∧ (∀ i, i < length logical →
         ∃ c k, logical !! i = Some c ∧ pmap !! i = Some k ∧ text !! k = Some c).
Proof.
  destruct (build_position_map_inv text) as [Hrun [i' [Hc _ Hs]]].
  destruct (build_position_map text) as [logical pmap]. simpl in *.
  exists logical, pmap. split_and!; [done..| | |].
  - by eapply Forall2_length.
  - intros i j a b Hij Ha Hb.
    by eapply (sorted_lookup_lt lt pmap i j).
  - intros i Hi.
    destruct (lookup_lt_is_Some_2 logical i Hi) as [c Hlc].
    destruct (Forall2_lookup_l _ _ _ _ _ Hc Hlc) as (k & Hk & Htk).
    eauto.
Qed.

(** ** Substring search *)

Lemma after_prefix_Some p s r : after_prefix p s = Some r ↔ s = p ++ r.
Proof.
  revert s. induction p as [|a p IH]; intros s; simpl.
  { split; congruence. }
  destruct s as [|b s]; [done|].
  destruct (N.eqb_spec a b) as [->|Hne].
  - rewrite IH. split; congruence.
  - split; [done|]. intros ?; simplify_eq.
Qed.

Lemma after_prefix_occurs sub s : is_Some (after_prefix sub s) ↔ occurs_at s sub 0.
Proof.
  unfold occurs_at. rewrite drop_0. split.
  - intros [r ->%after_prefix_Some]. by rewrite take_app_length.
  - intros H. exists (drop (length sub) s). apply after_prefix_Some.
    rewrite <- H at 1. by rewrite take_drop.
Qed.

Lemma occurs_at_bound s sub p :
  occurs_at s sub p → sub ≠ [] → p + length sub ≤ length s.
Proof.
  unfold occurs_at. intros H Hne. apply (f_equal length) in H.
  rewrite length_take, length_drop in H.
  destruct sub as [|c sub]; [done|]. rewrite length_cons in H |- *. lia.
Qed.

Lemma find_from_Some i s sub q :
  find_from i s sub = Some q →
  ∃ p, q = i + p ∧ p ≤ length s ∧ occurs_at s sub p
       ∧ ∀ p', p' < p → ¬ occurs_at s sub p'.
Proof.
  revert i. induction s as [|c s IH]; intros i; simpl.
  - destruct (after_prefix sub []) eqn:Hp; [|done].
    intros [= <-]. exists 0. split_and!; [lia|done| |lia].
    apply after_prefix_occurs. by rewrite Hp.
  - destruct (after_prefix sub (c :: s)) eqn:Hp.
    + intros [= <-]. exists 0. split_and!; [lia|lia| |lia].
      apply after_prefix_occurs. by rewrite Hp.
    + intros (p & -> & Hle & Hocc & Hmin)%IH.
      exists (S p). split_and!; [lia|lia|done|].
      intros [|p'] Hlt.
      * rewrite <- after_prefix_occurs, Hp. by intros [? ?].
      * apply Hmin. lia.
Qed.

Lemma find_from_None i s sub p : find_from i s sub = None → ¬ occurs_at s sub p.
Proof.
  revert i p. induction s as [|c s IH]; intros i p; simpl.
  - destruct (after_prefix sub []) eqn:Hp; [done|]. intros _ Hocc.
    unfold occurs_at in Hocc. rewrite drop_nil in Hocc.
    assert (is_Some (after_prefix sub [])) as [? ?]; [|congruence].
    apply after_prefix_occurs. unfold occurs_at. by rewrite drop_nil.
  - destruct (after_prefix sub (c :: s)) eqn:Hp; [done|]. intros Hf.
    destruct p as [|p].
    + rewrite <- after_prefix_occurs, Hp. by intros [? ?].
    + by apply (IH (S i) p).
Qed.

(** [find] returns the first occurrence. *)
Lemma find_Some s sub q :
  find s sub = Some q →
  q ≤ length s ∧ occurs_at s sub q ∧ ∀ p, p < q → ¬ occurs_at s sub p.
Proof. intros (p & -> & ? & ? & ?)%find_from_Some. done. Qed.

Lemma find_None s sub : find s sub = None → ∀ p, ¬ occurs_at s sub p.
Proof. intros H p. by eapply find_from_None. Qed.

Lemma find_first s sub p :
  occurs_at s sub p → (∀ p', p' < p → ¬ occurs_at s sub p') → find s sub = Some p.
Proof.
  intros Hocc Hmin. destruct (find s sub) as [q|] eqn:Hf.
  - apply find_Some in Hf as (_ & Hq & Hqmin).
    destruct (Nat.lt_trichotomy p q) as [?|[->|?]]; [|done|].
    + by destruct (Hqmin p).
    + by destruct (Hmin q).
  - by destruct (find_None _ _ Hf p).
Qed.

Lemma find_nil s : find s [] = Some 0.
Proof. unfold find. by destruct s. Qed.

(** ** Locating an excerpt *)

Lemma pos_map_length original_text :
  length (build_position_map original_text).1
  = length (build_position_map original_text).2.
Proof.
  destruct (build_position_map_inv original_text) as [_ [i [Hc _ _]]].
  by eapply Forall2_length.
Qed.

Lemma pos_map_bound original_text i k :
  (build_position_map original_text).2 !! i = Some k → k < length original_text.
Proof.
  destruct (build_position_map_inv original_text) as [_ [j [Hc _ _]]].
  intros Hk. destruct (Forall2_lookup_r _ _ _ _ _ Hc Hk) as (c & _ & Hc').
  by eapply lookup_lt_Some.
Qed.

Lemma pos_map_increasing original_text i j a b :
  i ≤ j →
  (build_position_map original_text).2 !! i = Some a →
  (build_position_map original_text).2 !! j = Some b →
  a ≤ b.
Proof.
  destruct (build_position_map_inv original_text) as [_ [n [_ _ Hs]]].
  intros Hij Ha Hb. destruct (decide (i = j)) as [->|Hne].
  - assert (a = b) by congruence. lia.
  - apply Nat.lt_le_incl.
    by apply (sorted_lookup_lt lt (build_position_map original_text).2 i j);
      [|lia|..].
Qed.

(** An occurrence of a non-empty string in the stripped text lies within
    the position map. *)
Lemma stripped_find_bound original_text sub p :
  find (build_position_map original_text).1 sub = Some p → 0 < length sub →
  p + length sub ≤ length (build_position_map original_text).2.
Proof.
  intros (_ & Hocc & _)%find_Some Hlen. rewrite <- pos_map_length.
  apply occurs_at_bound; [done|]. by destruct sub; [simpl in Hlen; lia|].
Qed.

Lemma locate_exact original_text excerpt stripped pmap pos :
  find original_text excerpt = Some pos →
  locate original_text stripped pmap excerpt
  = Ok (Some pos, Some (pos + length excerpt)).
Proof. unfold locate. by intros ->. Qed.

Lemma locate_fallback original_text excerpt pos :
  let excerpt_stripped := (build_position_map excerpt).1 in
  find original_text excerpt = None →
  find (build_position_map original_text).1 excerpt_stripped = Some pos →
  0 < length excerpt_stripped →
  ∃ a b,
    (build_position_map original_text).2 !! pos = Some a
    ∧ (build_position_map original_text).2 !! (pos + length excerpt_stripped - 1)
      = Some b
    ∧ locate original_text (build_position_map original_text).1
        (build_position_map original_text).2 excerpt
      = Ok (Some a, Some (b + 1)).
Proof.
  intros es Hex Hfb Hlen.
  pose proof (stripped_find_bound _ _ _ Hfb Hlen) as Hle. fold es in Hle.
  destruct (lookup_lt_is_Some_2 (build_position_map original_text).2 pos)
    as [a Ha]; [lia|].
  destruct (lookup_lt_is_Some_2 (build_position_map original_text).2
              (pos + length es - 1)) as [b Hb]; [lia|].
  exists a, b. split_and!; [done..|].
  unfold locate. rewrite Hex. fold es. rewrite Hfb.
  rewrite bool_decide_eq_true_2 by done.
  unfold subscript at 1. rewrite Ha. cbn [obind].
  rewrite Nat.min_l by done.
  rewrite !bool_decide_eq_true_2 by lia. cbn [andb].
  unfold subscript. rewrite Hb. done.
Qed.

Lemma locate_fallback_empty original_text excerpt :
  find original_text excerpt = None →
  (build_position_map excerpt).1 = [] →
  locate original_text (build_position_map original_text).1
    (build_position_map original_text).2 excerpt
  = Ok (None, None).
Proof.
  intros Hex Hnil. unfold locate. rewrite Hex, Hnil, find_nil. done.
Qed.

Lemma locate_not_found original_text excerpt :
  find original_text excerpt = None →
  find (build_position_map original_text).1 (build_position_map excerpt).1 = None →
  locate original_text (build_position_map original_text).1
    (build_position_map original_text).2 excerpt
  = Ok (None, None).
Proof. intros Hex Hfb. unfold locate. by rewrite Hex, Hfb. Qed.

(** [locate] raises nothing, sets [start_pos] and [end_pos] together, and
    a range it yields is non-empty and lies within the text. *)
Lemma locate_total original_text excerpt :
  excerpt ≠ [] →
  locate original_text (build_position_map original_text).1
    (build_position_map original_text).2 excerpt
  = Ok (None, None)
  ∨ ∃ s e,
      locate original_text (build_position_map original_text).1
        (build_position_map original_text).2 excerpt
      = Ok (Some s, Some e)
      ∧ s < e ≤ length original_text.
Proof.
  intros Hne.
  destruct (find original_text excerpt) as [pos|] eqn:Hex.
  { right. exists pos, (pos + length excerpt). split; [by apply locate_exact|].
    apply find_Some in Hex as (_ & Hocc & _).
    pose proof (occurs_at_bound _ _ _ Hocc Hne).
    destruct excerpt as [|c excerpt]; [done|]. rewrite length_cons in *. lia. }
  destruct (find (build_position_map original_text).1
              (build_position_map excerpt).1) as [pos|] eqn:Hfb;
    [|left; by apply locate_not_found].
  destruct (build_position_map excerpt).1 as [|c es] eqn:Hes.
  { left. by apply locate_fallback_empty. }
  destruct (locate_fallback original_text excerpt pos) as (a & b & Ha & Hb & ->);
    [done|by rewrite Hes|rewrite Hes; simpl; lia|].
  right. exists a, (b + 1). split; [done|].
  pose proof (pos_map_bound _ _ _ Hb).
  assert (a ≤ b); [|lia].
  eapply (pos_map_increasing original_text pos); [|exact Ha|exact Hb].
  rewrite Hes, length_cons. lia.
Qed.

(** ** The partition *)

Lemma for_each_fmap {A B C} (f : B → outcome C) (g : A → B) (l : list A) :
  for_each f (g <$> l) = for_each (f ∘ g) l.
Proof. induction l as [|x l IH]; csimpl; [done|]. by rewrite IH. Qed.

Lemma for_each_ext {A B} (f g : A → outcome B) (l : list A) :
  (∀ x, f x = g x) → for_each f l = for_each g l.
Proof. intros H. induction l as [|x l IH]; simpl; [done|]. by rewrite H, IH. Qed.

Lemma adjacent_cons_cons original_text position_issues a b rest :
  adjacent original_text position_issues (a :: b :: rest)
  = make_segment original_text position_issues a b
    :: adjacent original_text position_issues (b :: rest).
Proof. done. Qed.

(** The subscripts [positions[i]] and [positions[i + 1]] are always in
    range: [build_segments] raises nothing. *)
Lemma build_segments_Ok original_text position_issues positions :
  build_segments original_text position_issues positions
  = Ok (adjacent original_text position_issues positions).
Proof.
  unfold build_segments.
  induction positions as [|a [|b rest] IH]; [done..|].
  replace (length (a :: b :: rest) - 1) with (S (length (b :: rest) - 1))
    by (rewrite !length_cons; lia).
  rewrite <- cons_seq, <- fmap_S_seq. cbn [for_each].
  rewrite for_each_fmap.
  erewrite (for_each_ext _ _ (seq _ _)); [rewrite IH|]; done.
Qed.

Lemma adjacent_tiles original_text position_issues a rest z :
  StronglySorted lt (a :: rest) →
  last (a :: rest) = Some z →
  tiles a (adjacent original_text position_issues (a :: rest)) z.
Proof.
  revert a. induction rest as [|b rest IH]; intros a Hs Hlast.
  { simpl in *. congruence. }
  apply StronglySorted_cons in Hs as [Hlt Hs].
  rewrite last_cons_cons in Hlast.
  cbn [adjacent tiles make_segment seg_start seg_end].
  split_and!; [done|by inversion Hlt|by apply IH].
Qed.

Lemma sorted_last_ge a rest z :
  StronglySorted lt (a :: rest) → last (a :: rest) = Some z → a ≤ z.
Proof.
  intros [Hall _]%StronglySorted_cons Hl.
  apply last_Some_elem_of, elem_of_cons in Hl as [->|Hin]; [done|].
  rewrite Forall_forall in Hall. specialize (Hall _ Hin). lia.
Qed.

(** The texts of tiling segments, put together, are the text between the
    two ends. *)
Lemma adjacent_concat original_text position_issues a rest z :
  StronglySorted lt (a :: rest) →
  last (a :: rest) = Some z →
  concat (seg_text <$> adjacent original_text position_issues (a :: rest))
  = take (z - a) (drop a original_text).
Proof.
  revert a. induction rest as [|b rest IH]; intros a Hs Hlast.
  { simpl in *. simplify_eq. by rewrite Nat.sub_diag. }
  pose proof (sorted_last_ge _ _ _ Hs Hlast) as Haz.
  apply StronglySorted_cons in Hs as [Hlt Hs].
  rewrite last_cons_cons in Hlast.
  pose proof (sorted_last_ge _ _ _ Hs Hlast) as Hbz.
  assert (a < b) by (by inversion Hlt).
  rewrite adjacent_cons_cons, fmap_cons, concat_cons, (IH b Hs Hlast).
  cbn [make_segment seg_text].
  replace (drop b original_text) with (drop (b - a) (drop a original_text))
    by (rewrite drop_drop; f_equal; lia).
  replace (z - a) with ((b - a) + (z - b)) by lia.
  by rewrite take_take_drop.
Qed.

(** [sorted(set(l))] is strictly increasing and has the elements of [l]. *)
Lemma elem_of_sorted_set l x : x ∈ sorted_set l ↔ x ∈ l.
Proof.
  unfold sorted_set. rewrite merge_sort_Permutation, elem_of_elements.
  apply elem_of_list_to_set.
Qed.

Lemma le_sorted_NoDup_lt (l : list nat) :
  StronglySorted le l → NoDup l → StronglySorted lt l.
Proof.
  induction 1 as [|x l Hs IH Hall]; intros Hnd; [constructor|].
  apply NoDup_cons in Hnd as [Hx Hnd]. constructor; [by apply IH|].
  rewrite Forall_forall in Hall |- *. intros y Hy.
  specialize (Hall y Hy). assert (x ≠ y) by congruence. lia.
Qed.

Lemma sorted_set_sorted l : StronglySorted lt (sorted_set l).
Proof.
  apply le_sorted_NoDup_lt.
  - apply StronglySorted_merge_sort; apply _.
  - unfold sorted_set. rewrite merge_sort_Permutation. apply NoDup_elements.
Qed.

(** A strictly increasing list that contains a lower bound [lo] and an upper
    bound [hi] of its elements starts with [lo] and ends with [hi]. *)
Lemma sorted_ends (l : list nat) lo hi :
  StronglySorted lt l → lo ∈ l → hi ∈ l → Forall (λ x, lo ≤ x ≤ hi) l →
  ∃ rest, l = lo :: rest ∧ last l = Some hi.
Proof.
  intros Hs Hlo Hhi Hall. destruct l as [|a rest]; [by apply elem_of_nil in Hlo|].
  assert (a = lo) as ->.
  { apply StronglySorted_cons in Hs as [Hgt _]. rewrite Forall_forall in Hgt.
    apply Forall_cons in Hall as [? _].
    apply elem_of_cons in Hlo as [->|Hin]; [done|]. specialize (Hgt _ Hin). lia. }
  exists rest. split; [done|].
  destruct (last (lo :: rest)) as [z|] eqn:Hl; [|by apply last_None in Hl].
  f_equal. apply last_Some in Hl as Hsplit. destruct Hsplit as [l' Hl'].
  rewrite Forall_forall in Hall.
  assert (z ≤ hi) by (apply Hall; by eapply last_Some_elem_of).
  rewrite Hl' in Hs, Hhi.
  apply elem_of_app in Hhi as [Hin| ->%list_elem_of_singleton]; [|done].
  apply StronglySorted_app in Hs as (Hlt & _ & _).
  specialize (Hlt hi z Hin ltac:(by apply list_elem_of_singleton)). lia.
Qed.

(** The loops that fill [position_issues]: afterwards the entry of an offset
    lists, in the order of [highlight_ranges], the ranges that contain the
    offset. *)
Lemma cover_range_lookup hr (m : gmap nat (list highlight_range)) a n pos :
  default [] (foldl (λ m pos, <[pos := default [] (m !! pos) ++ [hr]]> m)
                    m (seq a n) !! pos)
  = default [] (m !! pos) ++ (if decide (a ≤ pos < a + n) then [hr] else []).
Proof.
  revert a m. induction n as [|n IH]; intros a m; simpl.
  { rewrite decide_False by lia. by rewrite app_nil_r. }
  rewrite IH. destruct (decide (pos = a)) as [->|Hne].
  - rewrite lookup_insert_eq. simpl.
    rewrite decide_False, decide_True by lia. by rewrite app_nil_r.
  - rewrite lookup_insert_ne by done.
    destruct (decide (S a ≤ pos < S a + n)), (decide (a ≤ pos < a + S n));
      done || lia.
Qed.

Lemma cover_lookup m hr pos :
  default [] (cover m hr !! pos)
  = default [] (m !! pos) ++ (if decide (covers pos hr) then [hr] else []).
Proof.
  unfold cover. rewrite cover_range_lookup. f_equal.
  unfold covers. destruct (decide _), (decide _); done || lia.
Qed.

Lemma foldl_cover_lookup m highlight_ranges pos :
  default [] (foldl cover m highlight_ranges !! pos)
  = default [] (m !! pos) ++ filter (covers pos) highlight_ranges.
Proof.
  revert m. induction highlight_ranges as [|hr l IH]; intros m; simpl.
  { by rewrite app_nil_r. }
  rewrite IH, cover_lookup, filter_cons, <- (assoc_L (++)).
  by destruct (decide (covers pos hr)).
Qed.

Lemma build_position_issues_lookup highlight_ranges pos :
  default [] (build_position_issues highlight_ranges !! pos)
  = filter (covers pos) highlight_ranges.
Proof. unfold build_position_issues. by rewrite foldl_cover_lookup, lookup_empty. Qed.

Lemma adjacent_elem original_text position_issues positions s :
  s ∈ adjacent original_text position_issues positions →
  s = make_segment original_text position_issues (seg_start s) (seg_end s).
Proof.
  induction positions as [|a [|b rest] IH]; [by intros ?%elem_of_nil..|].
  rewrite adjacent_cons_cons. intros [->|Hin]%elem_of_cons; [done|by apply IH].
Qed.

(** ** The order of [highlight_ranges] *)

Lemma insert_by_start_perm x l : insert_by_start x l ≡ₚ x :: l.
Proof.
  induction l as [|y l IH]; simpl; [done|].
  case_bool_decide; [done|]. by rewrite IH, Permutation_swap.
Qed.

Lemma sort_by_start_perm l : sort_by_start l ≡ₚ l.
Proof.
  induction l as [|x l IH]; simpl; [done|].
  by rewrite insert_by_start_perm, IH.
Qed.

Lemma insert_by_start_sorted x l :
  StronglySorted by_start_then_index l →
  Forall (by_index x) l →
  StronglySorted by_start_then_index (insert_by_start x l).
Proof.
  unfold by_index. induction 1 as [|y l Hs IH Hy]; intros Hx; simpl.
  { repeat constructor. }
  apply Forall_cons in Hx as [Hxy Hx]. case_bool_decide as Hle.
  - constructor; [by constructor|]. constructor.
    { unfold by_start_then_index. lia. }
    rewrite Forall_forall in Hy, Hx |- *. intros z Hz.
    specialize (Hy z Hz). specialize (Hx z Hz).
    unfold by_start_then_index in *. lia.
  - constructor; [by apply IH|].
    rewrite insert_by_start_perm. constructor; [|done].
    unfold by_start_then_index. lia.
Qed.

Lemma sort_by_start_sorted l :
  StronglySorted by_index l → StronglySorted by_start_then_index (sort_by_start l).
Proof.
  induction 1 as [|x l Hs IH Hx]; simpl; [constructor|].
  apply insert_by_start_sorted; [done|]. by rewrite sort_by_start_perm.
Qed.

Lemma filter_sorted {A} (R : relation A) (P : A → Prop) `{!∀ x, Decision (P x)} l :
  StronglySorted R l → StronglySorted R (filter P l).
Proof.
  induction 1 as [|x l Hs IH Hx]; [constructor|].
  rewrite filter_cons. destruct (decide (P x)); [|done].
  constructor; [done|]. rewrite Forall_forall in Hx |- *.
  intros y [_ Hy]%list_elem_of_filter. by apply Hx.
Qed.

(** ** The issues behind the ranges *)

Lemma filter_issues_spec sm si sq idx issues :
  StronglySorted fst_lt (filter_issues sm si sq idx issues)
  ∧ Forall (λ p, idx ≤ p.1 ∧ issues !! (p.1 - idx) = Some p.2)
           (filter_issues sm si sq idx issues).
Proof.
  revert idx. induction issues as [|iss rest IH]; intros idx; simpl.
  { split; constructor. }
  destruct (IH (S idx)) as [Hs Hall].
  assert (Forall (λ p : nat * issue,
            idx < p.1 ∧ (iss :: rest) !! (p.1 - idx) = Some p.2)
          (filter_issues sm si sq (S idx) rest)) as Hall'.
  { eapply Forall_impl; [exact Hall|]. intros [i x] [Hle Hl]; simpl in *.
    split; [lia|]. by replace (i - idx) with (S (i - S idx)) by lia. }
  destruct (hidden sm si sq (get_type iss)).
  - split; [done|]. eapply Forall_impl; [exact Hall'|].
    intros p [Hlt Hl]. split; [lia|done].
  - split.
    + constructor; [done|]. eapply Forall_impl; [exact Hall'|].
      by intros p [Hlt _].
    + constructor; [simpl; by rewrite Nat.sub_diag|].
      eapply Forall_impl; [exact Hall'|].
      intros p [Hlt Hl]. split; [lia|done].
Qed.

(** The loop over [filtered_issues] raises nothing; its ranges come in the
    order of the issues, each is non-empty, lies within the text and is what
    [locate] found for the excerpt of its issue. *)
Lemma locate_all_spec original_text filtered_issues :
  StronglySorted fst_lt filtered_issues →
  ∃ highlight_ranges,
    locate_all original_text (build_position_map original_text).1
      (build_position_map original_text).2 filtered_issues
    = Ok highlight_ranges
    ∧ StronglySorted by_index highlight_ranges
    ∧ Forall (λ hr, hr_start hr < hr_end hr ≤ length original_text
                    ∧ ∃ entry, entry ∈ filtered_issues
                               ∧ located_for original_text entry hr)
             highlight_ranges.
Proof.
  induction 1 as [|[idx iss] rest Hs IH Hidx]; [by repeat econstructor|].
  destruct IH as (found & Hrun & Hsorted & Hall).
  assert (Forall (λ hr, hr_start hr < hr_end hr ≤ length original_text
                    ∧ ∃ entry, entry ∈ (idx, iss) :: rest
                               ∧ located_for original_text entry hr) found)
    as Hall'.
  { eapply Forall_impl; [exact Hall|]. intros hr (? & entry & ? & ?).
    split; [done|]. exists entry. split; [by right|done]. }
  cbn [locate_all]. rewrite Hrun.
  destruct (get_excerpt iss) as [|c e] eqn:He; [by eauto|].
  destruct (locate_total original_text (c :: e)) as [Hl|(s & e' & Hl & Hbounds)];
    [done| |]; cbv zeta in Hl; rewrite Hl; cbn [obind].
  { by eauto. }
  eexists. split; [done|]. split.
  - constructor; [done|].
    rewrite Forall_forall in Hall. rewrite Forall_forall in Hidx.
    rewrite Forall_forall.
    intros hr Hhr. destruct (Hall hr Hhr) as (_ & entry & Hin & Hidx' & _).
    specialize (Hidx entry Hin). unfold by_index, fst_lt in *. simpl in *. lia.
  - constructor; [|done]. split; [done|].
    exists (idx, iss). split; [by left|].
    unfold located_for. simpl. rewrite He. done.
Qed.

(** ** From ranges to segments *)

Lemma positions_ends original_text highlight_ranges :
  Forall (within original_text) highlight_ranges →
  StronglySorted lt (positions original_text highlight_ranges)
  ∧ ∃ rest, positions original_text highlight_ranges = 0 :: rest
            ∧ last (positions original_text highlight_ranges)
              = Some (length original_text).
Proof.
  intros Hall. unfold positions. split; [apply sorted_set_sorted|].
  apply sorted_ends; [apply sorted_set_sorted|..].
  - apply elem_of_sorted_set. set_solver.
  - apply elem_of_sorted_set. set_solver.
  - apply Forall_forall. intros x Hx.
    apply (proj1 (elem_of_sorted_set _ _)) in Hx.
    rewrite Forall_forall in Hall. unfold within in Hall.
    rewrite !elem_of_app, !list_elem_of_fmap in Hx.
    destruct Hx as [Hx|[(hr & -> & Hin)|(hr & -> & Hin)]].
    + set_unfold in Hx. lia.
    + specialize (Hall hr Hin). lia.
    + specialize (Hall hr Hin). lia.
Qed.

(** What [partition] returns: it raises nothing; the segments tile the text;
    each carries its slice of the text and, in the order of the sorted
    [highlight_ranges], the ranges that contain its first offset. *)
Lemma partition_spec original_text highlight_ranges :
  Forall (within original_text) highlight_ranges →
  ∃ segments,
    partition original_text highlight_ranges = Ok segments
    ∧ tiles 0 segments (length original_text)
    ∧ concat (seg_text <$> segments) = original_text
    ∧ Forall (λ s,
        seg_text s = take (seg_end s - seg_start s) (drop (seg_start s) original_text)
        ∧ seg_issues s
          = filter (covers (seg_start s)) (sort_by_start highlight_ranges))
        segments.
Proof.
  intros Hall. unfold partition. rewrite build_segments_Ok.
  eexists. split; [done|].
  assert (Forall (within original_text) (sort_by_start highlight_ranges)) as Hall'.
  { by rewrite sort_by_start_perm. }
  destruct (positions_ends _ _ Hall') as (Hs & rest & Hb & Hlast).
  rewrite Hb in Hs, Hlast |- *. split_and!.
  - by apply adjacent_tiles.
  - rewrite (adjacent_concat _ _ 0 rest (length original_text)) by done.
    by rewrite drop_0, Nat.sub_0_r, firstn_all.
  - apply Forall_forall. intros [a b t covering] Hin%adjacent_elem.
    unfold make_segment in Hin. cbn [seg_start seg_end] in Hin.
    injection Hin as -> ->. cbn [seg_start seg_end seg_text seg_issues].
    by rewrite build_position_issues_lookup.
Qed.

Lemma highlight_segments_spec original_text filtered_issues :
  StronglySorted fst_lt filtered_issues →
  ∃ highlight_ranges segments,
    locate_all original_text (build_position_map original_text).1
      (build_position_map original_text).2 filtered_issues
    = Ok highlight_ranges
    ∧ StronglySorted by_index highlight_ranges
    ∧ Forall (λ hr, hr_start hr < hr_end hr ≤ length original_text
                    ∧ ∃ entry, entry ∈ filtered_issues
                               ∧ located_for original_text entry hr)
             highlight_ranges
    ∧ highlight_segments original_text filtered_issues = Ok segments
    ∧ partition original_text highlight_ranges = Ok segments.
Proof.
  intros Hs. destruct (locate_all_spec original_text _ Hs) as (hrs & Hrun & Hidx & Hall).
  destruct (partition_spec original_text hrs) as (segs & Hpart & _).
  { eapply Forall_impl; [exact Hall|]. intros hr [? _]. unfold within. lia. }
  exists hrs, segs. split_and!; [done..| |done].
  unfold highlight_segments.
  destruct (build_position_map original_text) as [stripped pmap]. simpl in Hrun.
  rewrite Hrun. done.
Qed.

(** [filtered_issues] of a call lists the issues by ascending index. *)
Lemma filter_issues_sorted sm si sq issues :
  StronglySorted fst_lt (filter_issues sm si sq 0 issues).
Proof. apply filter_issues_spec. Qed.

Lemma filter_issues_lookup sm si sq issues entry :
  entry ∈ filter_issues sm si sq 0 issues → issues !! entry.1 = Some entry.2.
Proof.
  destruct (filter_issues_spec sm si sq 0 issues) as [_ Hall].
  rewrite Forall_forall in Hall. intros [_ Hl]%Hall.
  by rewrite Nat.sub_0_r in Hl.
Qed.

Lemma locate_all_single original_text stripped pmap idx iss r :
  get_excerpt iss ≠ [] →
  locate original_text stripped pmap (get_excerpt iss) = Ok r →
  locate_all original_text stripped pmap [(idx, iss)]
  = Ok match r with
       | (Some s, Some e) => [range_of idx iss s e]
       | _ => []
       end.
Proof.
  intros Hne Hl. cbn [locate_all].
  destruct (get_excerpt iss) as [|c e]; [done|].
  rewrite Hl. cbn [obind]. by destruct r as [[s|] [e'|]].
Qed.

Lemma locate_all_single_empty original_text stripped pmap idx iss :
  get_excerpt iss = [] →
  locate_all original_text stripped pmap [(idx, iss)] = Ok [].
Proof. intros He. cbn [locate_all]. by rewrite He. Qed.

(** [highlight_text] raises nothing. *)
Lemma highlight_text_Ok title original_text issues sm si sq :
  ∃ html, highlight_text title original_text issues sm si sq = Ok html.
Proof.
  unfold highlight_text. destruct issues as [|iss issues]; [by eauto|].
  pose proof (filter_issues_sorted sm si sq (iss :: issues)) as Hs.
  destruct (filter_issues sm si sq 0 (iss :: issues)) as [|entry filtered];
    [by eauto|].
  destruct (highlight_segments_spec original_text _ Hs)
    as (hrs & segs & _ & _ & _ & -> & _).
  by eauto.
Qed.

(** * The claims *)

(** ** C1 *)

(** C1, counterexample. Over the text "abcdefghijklmnopqrst", issue 0 quotes
    "fghijklmno" (range 5..15) and issue 1 quotes "abcdefghij" (range
    0..10): the segment 5..10 lists issue 1 before issue 0, because
    [highlight_ranges] is sorted by ['start'] before the covering lists are
    filled. *)
Lemma covering_lists_by_issue_index_fails : ¬ covering_lists_by_issue_index.
Proof.
  intros H.
  specialize (H (lit "abcdefghijklmnopqrst")
                [Issue (Some (lit "fghijklmno")) None None None;
                 Issue (Some (lit "abcdefghij")) None None None]
                true true true _ eq_refl).
  vm_compute in H.
  apply Forall_cons in H as [_ H]. apply Forall_cons in H as [H _].
  apply StronglySorted_cons in H as [H _]. apply Forall_cons in H as [H _]. lia.
Qed.

(** C1, as the code has it. For every text, issue list and visibility
    flags, the segments are computed without an exception and the covering
    issues of every segment are listed by ascending range start, and by
    ascending [issue_index] among ranges with the same start; the primary
    issue is therefore the covering issue with the earliest start. *)
Theorem covering_lists_by_start_then_index original_text issues sm si sq :
  ∃ segments,
    highlight_segments original_text (filter_issues sm si sq 0 issues) = Ok segments
    ∧ Forall (λ s, StronglySorted by_start_then_index (seg_issues s)) segments.
Proof.
  destruct (highlight_segments_spec original_text _
              (filter_issues_sorted sm si sq issues))
    as (hrs & segs & _ & Hidx & Hall & Hrun & Hpart).
  exists segs. split; [done|].
  destruct (partition_spec original_text hrs) as (segs' & Hpart' & _ & _ & Hsegs).
  { eapply Forall_impl; [exact Hall|]. intros hr [? _]. unfold within. lia. }
  rewrite Hpart in Hpart'. injection Hpart' as <-.
  eapply Forall_impl; [exact Hsegs|]. intros s [_ ->].
  apply filter_sorted. by apply sort_by_start_sorted.
Qed.

(** ** C3 *)

(** C3. If the trimmed excerpt of an issue is non-empty and occurs in the
    original text at some offset [p], then there is a first occurrence [q]
    (no occurrence lies before it, and [q <= p]), [locate] returns the range
    from [q] to [q + len(excerpt)], and it does so whatever stripped text and
    position map it is given: the fallback is not consulted.  The issue
    contributes exactly that range. *)
Theorem exact_match_priority original_text (iss : issue) (p : nat) :
  get_excerpt iss ≠ [] →
  occurs_at original_text (get_excerpt iss) p →
  ∃ q,
    q ≤ p
    ∧ occurs_at original_text (get_excerpt iss) q
    ∧ (∀ p', p' < q → ¬ occurs_at original_text (get_excerpt iss) p')
    ∧ (∀ stripped pmap,
         locate original_text stripped pmap (get_excerpt iss)
         = Ok (Some q, Some (q + length (get_excerpt iss))))
    ∧ (∀ stripped pmap idx,
         locate_all original_text stripped pmap [(idx, iss)]
         = Ok [range_of idx iss q (q + length (get_excerpt iss))]).
Proof.
  intros Hne Hocc.
  destruct (find original_text (get_excerpt iss)) as [q|] eqn:Hf;
    [|by destruct (find_None _ _ Hf p)].
  pose proof (find_Some _ _ _ Hf) as (_ & Hq & Hmin).
  exists q. split_and!; [|done|done| |].
  - destruct (decide (q ≤ p)); [done|]. destruct (Hmin p); [lia|done].
  - intros stripped pmap. by apply locate_exact.
  - intros stripped pmap idx.
    by rewrite (locate_all_single _ _ _ _ _ _ Hne (locate_exact _ _ stripped pmap _ Hf)).
Qed.

(** C3, at a concrete input: " bc " is trimmed to "bc", which occurs in
    "abcabc" at offset 4 and first at offset 1. *)
Lemma exact_match_priority_witness :
  let original_text := lit "abcabc" in
  let iss := Issue (Some (lit " bc ")) None None None in
  get_excerpt iss ≠ []
  ∧ occurs_at original_text (get_excerpt iss) 4
  ∧ ∃ q,
      q ≤ 4
      ∧ occurs_at original_text (get_excerpt iss) q
      ∧ (∀ p', p' < q → ¬ occurs_at original_text (get_excerpt iss) p')
      ∧ (∀ stripped pmap,
           locate original_text stripped pmap (get_excerpt iss)
           = Ok (Some q, Some (q + length (get_excerpt iss))))
      ∧ (∀ stripped pmap idx,
           locate_all original_text stripped pmap [(idx, iss)]
           = Ok [range_of idx iss q (q + length (get_excerpt iss))]).
Proof.
  intros original_text iss.
  assert (get_excerpt iss ≠ []) as Hne by (vm_compute; discriminate).
  assert (occurs_at original_text (get_excerpt iss) 4) as Hocc by reflexivity.
  split; [exact Hne|]. split; [exact Hocc|].
  exact (exact_match_priority original_text iss 4 Hne Hocc).
Defined.

(** ** C4 *)

(** C4. Let the trimmed excerpt of an issue occur nowhere in the original
    text, let [logical] and [pmap] be the result of [build_position_map] on
    the original text and let the logical form of the excerpt have length
    [L].  If the logical form occurs nowhere in [logical], [locate] yields no
    range.  If its first occurrence is at [p] and the index [p + L - 1] is
    within [pmap], the range is from [pmap[p]] to [pmap[p + L - 1] + 1];
    if that index is outside [pmap], [locate] yields no range.  In each case
    the issue contributes the range, or nothing, accordingly. *)
Theorem fallback_translation original_text (iss : issue) (idx : nat) :
  let excerpt := get_excerpt iss in
  let logical := (build_position_map original_text).1 in
  let pmap := (build_position_map original_text).2 in
  let excerpt_logical := (build_position_map excerpt).1 in
  let L := length excerpt_logical in
  (∀ p, ¬ occurs_at original_text excerpt p) →
  ((∀ p, ¬ occurs_at logical excerpt_logical p) →
     locate original_text logical pmap excerpt = Ok (None, None)
     ∧ locate_all original_text logical pmap [(idx, iss)] = Ok [])
  ∧ (∀ p,
       occurs_at logical excerpt_logical p →
       (∀ p', p' < p → ¬ occurs_at logical excerpt_logical p') →
       ((0 ≤ Z.of_nat p + Z.of_nat L - 1 < Z.of_nat (length pmap))%Z →
          ∃ a b,
            pmap !! p = Some a ∧ pmap !! (p + L - 1) = Some b
            ∧ locate original_text logical pmap excerpt = Ok (Some a, Some (b + 1))
            ∧ locate_all original_text logical pmap [(idx, iss)]
              = Ok [range_of idx iss a (b + 1)])
       ∧ (¬ (0 ≤ Z.of_nat p + Z.of_nat L - 1 < Z.of_nat (length pmap))%Z →
            locate original_text logical pmap excerpt = Ok (None, None)
            ∧ locate_all original_text logical pmap [(idx, iss)] = Ok [])).
Proof.
  intros excerpt logical pmap el L Hnone.
  assert (excerpt ≠ []) as Hne.
  { intros He. apply (Hnone 0). by rewrite He. }
  assert (find original_text excerpt = None) as Hex.
  { destruct (find original_text excerpt) as [q|] eqn:Hf; [|done].
    apply find_Some in Hf as (_ & Hq & _). by destruct (Hnone q). }
  split.
  - intros Hnol.
    assert (find logical el = None) as Hfb.
    { destruct (find logical el) as [q|] eqn:Hf; [|done].
      apply find_Some in Hf as (_ & Hq & _). by destruct (Hnol q). }
    pose proof (locate_not_found original_text excerpt Hex Hfb) as Hl.
    split; [done|]. by rewrite (locate_all_single _ _ _ _ _ _ Hne Hl).
  - intros p Hocc Hmin.
    pose proof (find_first _ _ _ Hocc Hmin) as Hfb.
    destruct (decide (L = 0)) as [HL|HL].
    + (* an empty logical form is found at offset 0 and rejected *)
      pose proof (nil_length_inv _ HL) as Hnil.
      assert (p = 0) as ->.
      { destruct p as [|p]; [done|]. destruct (Hmin 0); [lia|].
        unfold occurs_at. fold L. by rewrite HL. }
      split; [lia|]. intros _.
      pose proof (locate_fallback_empty original_text excerpt Hex Hnil) as Hl.
      split; [done|]. by rewrite (locate_all_single _ _ _ _ _ _ Hne Hl).
    + (* a non-empty logical form lies within the position map *)
      pose proof (stripped_find_bound original_text el p Hfb) as Hle.
      fold pmap L in Hle.
      split; [|lia]. intros _.
      destruct (locate_fallback original_text excerpt p Hex Hfb)
        as (a & b & Ha & Hb & Hl); [cbv zeta; fold el L; lia|].
      exists a, b. split_and!; [done..|].
      by rewrite (locate_all_single _ _ _ _ _ _ Hne Hl).
Qed.

(** C4, at a concrete input: the canonical annotated sentence, whose excerpt
    occurs nowhere in the original text. *)
Lemma fallback_translation_witness :
  let original_text := lit "Paris is the capital (https://example.com/1)." in
  let iss := Issue (Some (lit "Paris is the capital.")) None None None in
  let excerpt := get_excerpt iss in
  let logical := (build_position_map original_text).1 in
  let pmap := (build_position_map original_text).2 in
  let excerpt_logical := (build_position_map excerpt).1 in
  let L := length excerpt_logical in
  (∀ p, ¬ occurs_at original_text excerpt p)
  ∧ ((∀ p, ¬ occurs_at logical excerpt_logical p) →
       locate original_text logical pmap excerpt = Ok (None, None)
       ∧ locate_all original_text logical pmap [(0, iss)] = Ok [])
  ∧ (∀ p,
       occurs_at logical excerpt_logical p →
       (∀ p', p' < p → ¬ occurs_at logical excerpt_logical p') →
       ((0 ≤ Z.of_nat p + Z.of_nat L - 1 < Z.of_nat (length pmap))%Z →
          ∃ a b,
            pmap !! p = Some a ∧ pmap !! (p + L - 1) = Some b
            ∧ locate original_text logical pmap excerpt = Ok (Some a, Some (b + 1))
            ∧ locate_all original_text logical pmap [(0, iss)]
              = Ok [range_of 0 iss a (b + 1)])
       ∧ (¬ (0 ≤ Z.of_nat p + Z.of_nat L - 1 < Z.of_nat (length pmap))%Z →
            locate original_text logical pmap excerpt = Ok (None, None)
            ∧ locate_all original_text logical pmap [(0, iss)] = Ok [])).
Proof.
  intros original_text iss excerpt logical pmap excerpt_logical L.
  assert (∀ p, ¬ occurs_at original_text excerpt p) as Hnone.
  { apply find_None. vm_compute. reflexivity. }
  split; [exact Hnone|].
  exact (fallback_translation original_text iss 0 Hnone).
Defined.

(** ** C5 *)

(** C5. For the text "Paris is the capital (https://example.com/1)." and the
    excerpt "Paris is the capital.": the exact search fails; the mapper
    elides the annotation run at offsets 20..43, so that the logical text is
    the excerpt and its final period maps to offset 44; [locate] returns the
    range from 0 to 45, the length of the original text, whose last
    character is the closing period; and [highlight_text]'s only segment is
    the whole text, covered by the issue. *)
Theorem annotation_aware_fallback :
  find paris_text paris_excerpt = None
  ∧ build_position_map paris_text = (paris_excerpt, seq 0 20 ++ [44])
  ∧ locate paris_text (build_position_map paris_text).1
      (build_position_map paris_text).2 paris_excerpt
    = Ok (Some 0, Some 45)
  ∧ length paris_text = 45
  ∧ paris_text !! 44 = Some 46%N
  ∧ take 24 (drop 20 paris_text) = lit " (https://example.com/1)"
  ∧ ∀ type issue srcs,
      let iss := Issue (Some paris_excerpt) type issue srcs in
      highlight_segments paris_text [(0, iss)]
      = Ok [ {| seg_start := 0; seg_end := 45; seg_text := paris_text;
                seg_issues := [range_of 0 iss 0 45] |} ].
Proof.
  split_and!; [by vm_compute..|].
  intros type issue srcs iss.
  unfold highlight_segments, locate_all, get_excerpt, range_of.
  cbn [iss i_excerpt default from_option id].
  replace (build_position_map paris_text) with (paris_excerpt, seq 0 20 ++ [44])
    by (by vm_compute).
  replace (strip paris_excerpt) with paris_excerpt by (by vm_compute).
  replace (locate paris_text paris_excerpt (seq 0 20 ++ [44]) paris_excerpt)
    with (Ok (A:=option nat * option nat) (Some 0, Some 45)) by (by vm_compute).
  cbn [obind paris_excerpt lit].
  generalize (get_type iss) (default (lit "No explanation") (i_issue iss))
             (default [] (i_sources iss)).
  intros ty ex so. by vm_compute.
Qed.

(** ** C6 *)

(** C6. (1) For ranges that lie within the text, [partition] raises nothing
    and its segments tile the text from 0 to [len(original)]: the first
    starts at 0, each is non-empty and starts where the one before it ends,
    the last ends at [len(original)]; the segment texts are the slices of
    the text and their concatenation is the text.  (2) The ranges that
    [highlight_text] locates lie within the text, so this holds of the
    segments of every call.  (3) Over a text of 20 characters, a range 0..10
    of issue 1 (index 0) and a range 5..15 of issue 2 (index 1) give exactly
    the segments 0..5, 5..10, 10..15 and 15..20, covered by the first range,
    by both, by the second and by none. *)
Theorem partition_completeness :
  (∀ original_text highlight_ranges,
     Forall (within original_text) highlight_ranges →
     ∃ segments,
       partition original_text highlight_ranges = Ok segments
       ∧ tiles 0 segments (length original_text)
       ∧ concat (seg_text <$> segments) = original_text
       ∧ Forall (λ s, seg_text s
                      = take (seg_end s - seg_start s) (drop (seg_start s) original_text))
                segments)
  ∧ (∀ original_text issues sm si sq,
       ∃ segments,
         highlight_segments original_text (filter_issues sm si sq 0 issues) = Ok segments
         ∧ tiles 0 segments (length original_text)
         ∧ concat (seg_text <$> segments) = original_text
         ∧ Forall (λ s, seg_text s
                        = take (seg_end s - seg_start s) (drop (seg_start s) original_text))
                  segments)
  ∧ (∀ original_text r1 r2,
       length original_text = 20 →
       hr_start r1 = 0 → hr_end r1 = 10 → issue_index r1 = 0 →
       hr_start r2 = 5 → hr_end r2 = 15 → issue_index r2 = 1 →
       partition original_text [r1; r2]
       = Ok [ Segment 0 5 (take 5 original_text) [r1];
              Segment 5 10 (take 5 (drop 5 original_text)) [r1; r2];
              Segment 10 15 (take 5 (drop 10 original_text)) [r2];
              Segment 15 20 (take 5 (drop 15 original_text)) [] ]).
Proof.
  split_and!.
  - intros original_text hrs Hall.
    destruct (partition_spec original_text hrs Hall) as (segs & ? & ? & ? & Hs).
    exists segs. split_and!; [done..|].
    eapply Forall_impl; [exact Hs|]. by intros s [? _].
  - intros original_text issues sm si sq.
    destruct (highlight_segments_spec original_text _
                (filter_issues_sorted sm si sq issues))
      as (hrs & segs & _ & _ & Hall & Hrun & Hpart).
    destruct (partition_spec original_text hrs) as (segs' & Hpart' & ? & ? & Hs).
    { eapply Forall_impl; [exact Hall|]. intros hr [? _]. unfold within. lia. }
    rewrite Hpart in Hpart'. injection Hpart' as <-.
    exists segs. split_and!; [done..|].
    eapply Forall_impl; [exact Hs|]. by intros s [? _].
  - intros original_text [s1 e1 i1 t1 x1 so1] [s2 e2 i2 t2 x2 so2] Hlen.
    simpl. intros -> -> -> -> -> ->.
    unfold partition, build_segments, positions. rewrite Hlen.
    by vm_compute.
Qed.

(** C6, at a concrete input: the text "abcdefghijklmnopqrst" with a
    misleading range 0..10 and an incomplete range 5..15. *)
Lemma partition_completeness_witness :
  let original_text := lit "abcdefghijklmnopqrst" in
  let r1 := HighlightRange 0 10 0 (lit "misleading") (lit "first") [] in
  let r2 := HighlightRange 5 15 1 (lit "incomplete") (lit "second") [] in
  Forall (within original_text) [r1; r2]
  ∧ (∃ segments,
       partition original_text [r1; r2] = Ok segments
       ∧ tiles 0 segments (length original_text)
       ∧ concat (seg_text <$> segments) = original_text
       ∧ Forall (λ s, seg_text s
                      = take (seg_end s - seg_start s) (drop (seg_start s) original_text))
                segments)
  ∧ partition original_text [r1; r2]
    = Ok [ Segment 0 5 (lit "abcde") [r1];
           Segment 5 10 (lit "fghij") [r1; r2];
           Segment 10 15 (lit "klmno") [r2];
           Segment 15 20 (lit "pqrst") [] ].
Proof.
  intros original_text r1 r2.
  assert (Forall (within original_text) [r1; r2]) as Hin.
  { repeat constructor; vm_compute; lia. }
  split; [exact Hin|]. split.
  - exact (proj1 partition_completeness original_text [r1; r2] Hin).
  - exact (proj2 (proj2 partition_completeness) original_text r1 r2
             eq_refl eq_refl eq_refl eq_refl eq_refl eq_refl eq_refl).
Defined.

(** ** C7 *)

(** C7. The string that a segment with a non-empty covering list is
    rendered to is the [<mark>] element of lines 299-306 in which: the
    background colour is the colour of the kind of the primary (first
    listed) issue; with exactly one covering issue the border is
    transparent, the badge text is the 1-based index of the primary issue
    and the badge type is "single"; with more than one the border colour is
    that of the kind of the second issue, whatever the later ones are, the
    badge text is the number of covering issues and the badge type is
    "multiple". *)
Theorem presentation_metadata (title : str → str) (s : segment)
    (primary : highlight_range) (rest : list highlight_range) :
  seg_issues s = primary :: rest →
  render_segment title s = render_mark title primary s
  ∧ bg_color primary = colors_get (issue_type primary)
  ∧ (rest = [] →
       border_style (seg_issues s) = lit "2px solid transparent"
       ∧ badge_text primary (seg_issues s) = str_of_nat (issue_index primary + 1)
       ∧ badge_type (seg_issues s) = lit "single"
       ∧ render_segment title s
         = mark_element (issue_ids (seg_issues s))
             (escaped_tooltip title (seg_issues s))
             (str_of_nat (issue_index primary + 1))
             (lit "single")
             (colors_get (issue_type primary))
             (lit "2px solid transparent")
             (seg_text s))
  ∧ (∀ second others,
       rest = second :: others →
       border_style (seg_issues s)
       = lit "2px solid " ++ border_colors_get (issue_type second)
       ∧ badge_text primary (seg_issues s) = str_of_nat (length (seg_issues s))
       ∧ length (seg_issues s) = 2 + length others
       ∧ badge_type (seg_issues s) = lit "multiple"
       ∧ render_segment title s
         = mark_element (issue_ids (seg_issues s))
             (escaped_tooltip title (seg_issues s))
             (str_of_nat (2 + length others))
             (lit "multiple")
             (colors_get (issue_type primary))
             (lit "2px solid " ++ border_colors_get (issue_type second))
             (seg_text s)).
Proof.
  intros Hs.
  assert (render_segment title s = render_mark title primary s) as Hrender.
  { unfold render_segment. by rewrite Hs. }
  split_and!.
  - done.
  - done.
  - intros ->.
    assert (border_style (seg_issues s) = lit "2px solid transparent") as Hborder
      by (by rewrite Hs).
    assert (badge_text primary (seg_issues s) = str_of_nat (issue_index primary + 1))
      as Hbadge by (by rewrite Hs).
    assert (badge_type (seg_issues s) = lit "single") as Htype by (by rewrite Hs).
    split_and!; [done..|].
    rewrite Hrender. unfold render_mark, mark_element. cbv zeta.
    by rewrite Hborder, Hbadge, Htype.
  - intros second others ->.
    assert (length (seg_issues s) = 2 + length others) as Hlen by (by rewrite Hs).
    assert (border_style (seg_issues s)
            = lit "2px solid " ++ border_colors_get (issue_type second)) as Hborder.
    { rewrite Hs. unfold border_style.
      by rewrite bool_decide_eq_true_2 by (simpl; lia). }
    assert (badge_text primary (seg_issues s) = str_of_nat (length (seg_issues s)))
      as Hbadge.
    { unfold badge_text. by rewrite bool_decide_eq_false_2 by lia. }
    assert (badge_type (seg_issues s) = lit "multiple") as Htype.
    { unfold badge_type. by rewrite bool_decide_eq_false_2 by lia. }
    split_and!; [done..|].
    rewrite Hrender. unfold render_mark, mark_element. cbv zeta.
    by rewrite Hborder, Hbadge, Htype, Hlen.
Qed.

(** C7, at a concrete input: a segment covered by an incomplete issue 4
    (index 3) and a misleading issue 2 (index 1), in this order, is rendered
    with the background of "incomplete", the border of "misleading" and the
    badge "2" of type "multiple". *)
Lemma presentation_metadata_witness :
  let primary := HighlightRange 5 15 3 (lit "incomplete") (lit "first") [] in
  let second := HighlightRange 7 12 1 (lit "misleading") (lit "second") [] in
  let s := Segment 7 12 (lit "hello") [primary; second] in
  seg_issues s = [primary; second]
  ∧ bg_color primary = lit "#cce5ff"
  ∧ border_style (seg_issues s) = lit "2px solid #ff0000"
  ∧ badge_text primary (seg_issues s) = lit "2"
  ∧ badge_type (seg_issues s) = lit "multiple"
  ∧ render_segment (λ t, t) s
    = mark_element (lit "3,1")
        (lit "Issue #4 (incomplete):" ++ nl ++ lit "first" ++ nl
         ++ nl ++ lit "---" ++ nl ++ nl
         ++ lit "Issue #2 (misleading):" ++ nl ++ lit "second")
        (lit "2") (lit "multiple") (lit "#cce5ff") (lit "2px solid #ff0000")
        (lit "hello").
Proof.
  intros primary second s.
  destruct (presentation_metadata (λ t, t) s primary [second] eq_refl)
    as (_ & Hbg & _ & Hmulti).
  destruct (Hmulti second [] eq_refl) as (Hborder & Hbadge & _ & Htype & Hhtml).
  split; [reflexivity|]. split; [exact Hbg|]. split; [exact Hborder|].
  split; [exact Hbadge|]. split; [exact Htype|].
  rewrite Hhtml. by vm_compute.
Defined.

(** ** C8 *)

Lemma unlocatable_no_range original_text iss s e :
  unlocatable original_text iss →
  get_excerpt iss ≠ [] →
  locate original_text (build_position_map original_text).1
    (build_position_map original_text).2 (get_excerpt iss)
  ≠ Ok (Some s, Some e).
Proof.
  intros [He|[Hex Hfb]] Hne; [done|].
  rewrite locate_not_found; [done|..].
  - destruct (find original_text _) as [q|] eqn:Hf; [|done].
    apply find_Some in Hf as (_ & Hq & _). by destruct (Hex q).
  - destruct (find _ (build_position_map _).1) as [q|] eqn:Hf; [|done].
    apply find_Some in Hf as (_ & Hq & _). by destruct (Hfb q).
Qed.

(** C8. Let issue [k] of the list be unlocatable.  Then it contributes no
    range; [highlight_text] returns without an exception; in the segments it
    computes, no covering list holds a range of issue [k]; and every entry
    of [filtered_issues] is the caller's issue of that index, unchanged. *)
Theorem unlocatable_issue_not_highlighted (title : str → str) original_text
    issues sm si sq (k : nat) (iss : issue) :
  issues !! k = Some iss →
  unlocatable original_text iss →
  locate_all original_text (build_position_map original_text).1
    (build_position_map original_text).2 [(k, iss)] = Ok []
  ∧ (∃ html, highlight_text title original_text issues sm si sq = Ok html)
  ∧ (∃ segments,
       highlight_segments original_text (filter_issues sm si sq 0 issues)
       = Ok segments
       ∧ Forall (λ s, Forall (λ hr, issue_index hr ≠ k) (seg_issues s)) segments)
  ∧ Forall (λ entry, issues !! entry.1 = Some entry.2)
           (filter_issues sm si sq 0 issues).
Proof.
  intros Hk Hun. split_and!.
  - destruct (decide (get_excerpt iss = [])) as [He|Hne].
    { by apply locate_all_single_empty. }
    destruct (locate_total original_text (get_excerpt iss) Hne)
      as [Hl|(s & e & Hl & _)]; cbv zeta in Hl.
    + by rewrite (locate_all_single _ _ _ _ _ _ Hne Hl).
    + by destruct (unlocatable_no_range original_text iss s e).
  - apply highlight_text_Ok.
  - destruct (highlight_segments_spec original_text _
                (filter_issues_sorted sm si sq issues))
      as (hrs & segs & _ & _ & Hall & Hrun & Hpart).
    destruct (partition_spec original_text hrs) as (segs' & Hpart' & _ & _ & Hs).
    { eapply Forall_impl; [exact Hall|]. intros hr [? _]. unfold within. lia. }
    rewrite Hpart in Hpart'. injection Hpart' as <-.
    exists segs. split; [done|].
    eapply Forall_impl; [exact Hs|]. intros s [_ ->].
    apply Forall_forall. intros hr [_ Hin]%list_elem_of_filter.
    rewrite sort_by_start_perm in Hin.
    rewrite Forall_forall in Hall.
    destruct (Hall hr Hin) as (_ & entry & Hentry & Hidx & _ & Hne & Hl).
    intros Heq. apply filter_issues_lookup in Hentry.
    rewrite <- Hidx, Heq, Hk in Hentry. injection Hentry as Hiss.
    rewrite <- Hiss in Hne, Hl.
    by destruct (unlocatable_no_range original_text iss (hr_start hr) (hr_end hr)
                   Hun Hne).
  - apply Forall_forall. intros entry. apply filter_issues_lookup.
Qed.

(** C8, at a concrete input: of two issues over "The sky is green.", the
    first has a blank excerpt and the second quotes a phrase that is not in
    the text. *)
Lemma unlocatable_issue_not_highlighted_witness :
  let original_text := lit "The sky is green." in
  let blank := Issue (Some (lit "   ")) (Some (lit "incomplete")) None None in
  let absent := Issue (Some (lit "not present anywhere")) None None None in
  let issues := [blank; absent] in
  (issues !! 1 = Some absent ∧ unlocatable original_text absent)
  ∧ (issues !! 0 = Some blank ∧ unlocatable original_text blank)
  ∧ highlight_text (λ t, t) original_text issues true true true = Ok original_text
  ∧ ∃ segments,
      highlight_segments original_text (filter_issues true true true 0 issues)
      = Ok segments
      ∧ Forall (λ s, Forall (λ hr, issue_index hr ≠ 1) (seg_issues s)) segments
      ∧ Forall (λ s, Forall (λ hr, issue_index hr ≠ 0) (seg_issues s)) segments.
Proof.
  intros original_text blank absent issues.
  assert (unlocatable original_text absent) as Habsent.
  { right. split; apply find_None; by vm_compute. }
  assert (unlocatable original_text blank) as Hblank.
  { left. by vm_compute. }
  destruct (unlocatable_issue_not_highlighted (λ t, t) original_text issues
              true true true 1 absent eq_refl Habsent)
    as (_ & _ & (segs & Hrun & Hno1) & _).
  destruct (unlocatable_issue_not_highlighted (λ t, t) original_text issues
              true true true 0 blank eq_refl Hblank)
    as (_ & _ & (segs' & Hrun' & Hno0) & _).
  split; [by split|]. split; [by split|]. split; [by vm_compute|].
  exists segs. rewrite Hrun in Hrun'. injection Hrun' as <-. done.
Defined.

(** ** C9 *)

(** C9. For every text and every setting of the visibility flags,
    [highlight_text] with an empty issue list returns the text unchanged,
    without an exception; that is the rendering of the one plain segment that
    spans the text. *)
Theorem empty_issue_list (title : str → str) original_text sm si sq :
  highlight_text title original_text [] sm si sq = Ok original_text
  ∧ highlight_text title original_text [] sm si sq
    = Ok (render title [whole_text_segment original_text])
  ∧ seg_issues (whole_text_segment original_text) = []
  ∧ seg_text (whole_text_segment original_text) = original_text.
Proof.
  split_and!; [done| |done..].
  unfold render, render_segment. simpl. by rewrite app_nil_r.
Qed.

(** ** C10 *)

(** C10. Whenever the non-empty logical form of an excerpt, of length [L],
    is found at offset [p] of the logical text, [p + L <= len(pos_map)], so
    that the clamp [min(p + L, len(pos_map))] is [p + L], and the subscripts
    [pos_map[p]] and [pos_map[p + L - 1]] succeed.  [locate] raises nothing
    for any excerpt, and [highlight_text] raises nothing for any input. *)
Theorem fallback_subscripts_in_bounds (title : str → str) original_text
    (issues : list issue) sm si sq (excerpt : str) (p : nat) :
  let logical := (build_position_map original_text).1 in
  let pos_map := (build_position_map original_text).2 in
  let excerpt_stripped := (build_position_map excerpt).1 in
  let L := length excerpt_stripped in
  (find logical excerpt_stripped = Some p → 0 < L →
     p + L ≤ length pos_map
     ∧ (p + L) `min` length pos_map = p + L
     ∧ (∃ a, subscript pos_map p = Ok a)
     ∧ (∃ b, subscript pos_map ((p + L) `min` length pos_map - 1) = Ok b))
  ∧ (∃ r, locate original_text logical pos_map excerpt = Ok r)
  ∧ (∃ html, highlight_text title original_text issues sm si sq = Ok html).
Proof.
  intros logical pos_map es L. split_and!.
  - intros Hfb HL.
    pose proof (stripped_find_bound original_text es p Hfb HL) as Hle.
    fold pos_map L in Hle.
    rewrite Nat.min_l by done. split_and!; [done..| |].
    + destruct (lookup_lt_is_Some_2 pos_map p) as [a Ha]; [lia|].
      exists a. unfold subscript. by rewrite Ha.
    + destruct (lookup_lt_is_Some_2 pos_map (p + L - 1)) as [b Hb]; [lia|].
      exists b. unfold subscript. by rewrite Hb.
  - destruct excerpt as [|c e] eqn:He.
    { unfold locate. rewrite find_nil. by eauto. }
    destruct (locate_total original_text (c :: e)) as [Hl|(s & e' & Hl & _)];
      [done|by eauto..].
  - apply highlight_text_Ok.
Qed.

(** C10, at a concrete input: the logical form "Paris cap" of the excerpt
    "Paris (http://a.b/c) cap" is found at offset 0 of the logical text. *)
Lemma fallback_subscripts_in_bounds_witness :
  let original_text := lit "Paris cap (http://x.y/z)ital" in
  let excerpt := lit "Paris (http://a.b/c) cap" in
  let logical := (build_position_map original_text).1 in
  let pos_map := (build_position_map original_text).2 in
  let excerpt_stripped := (build_position_map excerpt).1 in
  let L := length excerpt_stripped in
  find original_text excerpt = None
  ∧ find logical excerpt_stripped = Some 0
  ∧ 0 < L
  ∧ 0 + L ≤ length pos_map
  ∧ (∃ a, subscript pos_map 0 = Ok a)
  ∧ (∃ b, subscript pos_map ((0 + L) `min` length pos_map - 1) = Ok b).
Proof.
  intros original_text excerpt logical pos_map excerpt_stripped L.
  assert (find logical excerpt_stripped = Some 0) as Hfb by (by vm_compute).
  assert (0 < L) as HL by (vm_compute; lia).
  destruct (fallback_subscripts_in_bounds (λ t, t) original_text [] true true true
              excerpt 0) as (Hsub & _ & _).
  destruct (Hsub Hfb HL) as (Hle & _ & Ha & Hb).
  split; [by vm_compute|]. split; [exact Hfb|]. split; [exact HL|].
  split; [exact Hle|]. split; [exact Ha|exact Hb].
Defined.


(** * Further properties *)

(** ** The mapper, beyond the round trip *)

(** Whatever holds before the loop and is kept by both kinds of iteration
    holds of the result, at a cursor where the loop test fails. *)
Lemma build_loop_invariant (P : nat → str → list nat → Prop) text :
  (∀ i s m n,
     P i s m → url_match (drop i text) = Some n → i < length text →
     P (i + n) s m) →
  (∀ i s m c rest,
     P i s m → drop i text = c :: rest → url_match (drop i text) = None →
     P (i + 1) (s ++ [c]) (m ++ [i])) →
  ∀ fuel i s m r,
    P i s m → build_loop fuel text i s m = Some r →
    ∃ i', drop i' text = [] ∧ P i' r.1 r.2.
Proof.
  intros Hskip Hemit. induction fuel as [|fuel IH]; intros i s m r HP; [done|].
  cbn [build_loop]. destruct (drop i text) as [|c rest] eqn:Hd.
  { intros [= <-]. by exists i. }
  assert (i < length text) as Hi.
  { apply (f_equal length) in Hd. rewrite length_drop, length_cons in Hd. lia. }
  destruct (url_match (c :: rest)) as [n|] eqn:Hm.
  - apply IH. apply Hskip; [done| |done]. by rewrite Hd.
  - apply IH. eapply Hemit; [done..|]. by rewrite Hd.
Qed.

Lemma build_position_map_invariant (P : nat → str → list nat → Prop) text :
  P 0 [] [] →
  (∀ i s m n,
     P i s m → url_match (drop i text) = Some n → i < length text →
     P (i + n) s m) →
  (∀ i s m c rest,
     P i s m → drop i text = c :: rest → url_match (drop i text) = None →
     P (i + 1) (s ++ [c]) (m ++ [i])) →
  ∃ i, length text ≤ i
       ∧ P i (build_position_map text).1 (build_position_map text).2.
Proof.
  intros H0 Hskip Hemit.
  destruct (build_position_map_inv text) as [Hrun _].
  destruct (build_loop_invariant P text Hskip Hemit _ _ _ _ _ H0 Hrun)
    as (i & Hd & HP).
  exists i. split; [by apply drop_nil_inv|done].
Qed.

(** A match of the annotation pattern contains an opening parenthesis. *)
Lemma url_match_lparen s n : url_match s = Some n → 40%N ∈ s.
Proof.
  unfold url_match. intros H.
  destruct (after_prefix (lit "(http") _) as [s1|] eqn:Hp; [|done].
  apply after_prefix_Some in Hp.
  assert (40%N ∈ drop (span isspace s) s) as Hin.
  { rewrite Hp. by left. }
  eapply sublist_subseteq; [apply sublist_drop|exact Hin].
Qed.

Lemma drop_cons_lookup {A} (l : list A) i c rest :
  drop i l = c :: rest → l !! i = Some c ∧ i < length l.
Proof.
  intros Hd. pose proof (lookup_drop l i 0) as Hl.
  rewrite Hd, Nat.add_0_r in Hl. split; [done|]. by eapply lookup_lt_Some.
Qed.

(** X1. A text without an opening parenthesis has no annotation:
    [build_position_map] returns the text itself and the identity map. *)
Theorem build_position_map_plain (text : str) :
  40%N ∉ text →
  build_position_map text = (text, seq 0 (length text)).
Proof.
  intros Hno.
  destruct (build_position_map_invariant
              (λ i s m, i ≤ length text ∧ s = take i text ∧ m = seq 0 i) text)
    as (i & Hge & Hle & Hs & Hm).
  - split_and!; [lia|done..].
  - intros i s m n _ Hmatch _. destruct Hno.
    apply url_match_lparen in Hmatch.
    eapply sublist_subseteq; [apply sublist_drop|exact Hmatch].
  - intros i s m c rest (Hle & -> & ->) Hd _.
    apply drop_cons_lookup in Hd as [Hc Hi]. split_and!; [lia| |].
    + rewrite Nat.add_1_r. by erewrite take_S_r.
    + by rewrite Nat.add_1_r, seq_S.
  - assert (i = length text) as -> by lia.
    rewrite firstn_all in Hs.
    destruct (build_position_map text) as [logical pmap]. simpl in *. congruence.
Qed.

(** X1, at a concrete input. *)
Lemma build_position_map_plain_witness :
  (40%N ∉ lit "plain text")
  ∧ build_position_map (lit "plain text") = (lit "plain text", seq 0 10).
Proof.
  assert (40%N ∉ lit "plain text") as Hno.
  { intros Hin%list_elem_of_In. vm_compute in Hin. intuition discriminate. }
  split; [exact Hno|]. exact (build_position_map_plain (lit "plain text") Hno).
Defined.

(** X2. The logical text is the original text with characters left out: it
    is a subsequence of the text, and so never longer. *)
Theorem build_position_map_sublist (text : str) :
  (build_position_map text).1 `sublist_of` text
  ∧ length (build_position_map text).1 ≤ length text.
Proof.
  assert ((build_position_map text).1 `sublist_of` text) as Hsub.
  { destruct (build_position_map_invariant
                (λ i s m, s `sublist_of` take i text) text) as (i & _ & Hs).
    - done.
    - intros i s m n Hs _ _. rewrite <- take_take_drop.
      by apply sublist_inserts_r.
    - intros i s m c rest Hs Hd _. apply drop_cons_lookup in Hd as [Hc _].
      rewrite Nat.add_1_r. erewrite take_S_r by done. by apply sublist_app.
    - etrans; [exact Hs|apply sublist_take]. }
  split; [done|by apply sublist_length].
Qed.

(** X3. No offset recorded in the position map is the start of a match of
    the annotation pattern: a character kept in the logical text never opens
    an annotation run of the original text. *)
Theorem build_position_map_no_annotation_start (text : str) :
  Forall (λ j, url_match (drop j text) = None) (build_position_map text).2.
Proof.
  destruct (build_position_map_invariant
              (λ i s m, Forall (λ j, url_match (drop j text) = None) m) text)
    as (i & _ & H); [done| |..|done].
  - by intros i s m n H _ _.
  - intros i s m c rest H _ Hno. apply Forall_app. split; [done|].
    by constructor.
Qed.

(** ** Located ranges *)

(** X4. When the exact search fails and the fallback yields a range, the
    logical form of the excerpt occurs in the logical text at some offset
    [p]; the range starts at the original offset of its first character and
    ends just after that of its last; and every character of the logical
    form stands in the original text, at the offset the position map gives
    it, inside the range. *)
Theorem fallback_characters_in_range original_text (excerpt : str) (s e : nat) :
  let logical := (build_position_map original_text).1 in
  let pmap := (build_position_map original_text).2 in
  let excerpt_logical := (build_position_map excerpt).1 in
  find original_text excerpt = None →
  locate original_text logical pmap excerpt = Ok (Some s, Some e) →
  ∃ p,
    find logical excerpt_logical = Some p
    ∧ pmap !! p = Some s
    ∧ (∃ b, pmap !! (p + length excerpt_logical - 1) = Some b ∧ e = b + 1)
    ∧ ∀ k c,
        excerpt_logical !! k = Some c →
        ∃ j, pmap !! (p + k) = Some j ∧ s ≤ j < e ∧ original_text !! j = Some c.
Proof.
  intros logical pmap el Hex Hl. subst logical pmap el.
  destruct (find _ (build_position_map excerpt).1) as [p|] eqn:Hfb; cycle 1.
  { by rewrite (locate_not_found original_text excerpt Hex Hfb) in Hl. }
  destruct (decide (length (build_position_map excerpt).1 = 0)) as [HL|HL].
  { apply nil_length_inv in HL.
    by rewrite (locate_fallback_empty original_text excerpt Hex HL) in Hl. }
  destruct (locate_fallback original_text excerpt p Hex Hfb)
    as (a & b & Ha & Hb & Hl'); [lia|].
  rewrite Hl' in Hl. injection Hl as <- <-.
  exists p. split_and!; [done..|by eauto|].
  intros k c Hk.
  pose proof (lookup_lt_Some _ _ _ Hk) as Hlt.
  apply find_Some in Hfb as (_ & Hocc & _). unfold occurs_at in Hocc.
  assert ((build_position_map original_text).1 !! (p + k) = Some c) as Hk'.
  { pose proof (lookup_drop (build_position_map original_text).1 p k) as Hd.
    pose proof (lookup_take_lt (drop p (build_position_map original_text).1)
                  (length (build_position_map excerpt).1) k Hlt) as Ht.
    rewrite Hocc in Ht.
    exact (eq_trans (eq_sym Hd) (eq_trans (eq_sym Ht) Hk)). }
  destruct (build_position_map_inv original_text) as [_ [i [Hc _ _]]].
  destruct (Forall2_lookup_l _ _ _ _ _ Hc Hk') as (j & Hj & Hchar).
  exists j. split_and!; [done| | |done].
  - eapply (pos_map_increasing original_text p (p + k)); [lia|exact Ha|exact Hj].
  - assert (j ≤ b); [|lia].
    eapply (pos_map_increasing original_text (p + k)); [|exact Hj|exact Hb]. lia.
Qed.

(** X4, at a concrete input: the canonical annotated sentence. *)
Lemma fallback_characters_in_range_witness :
  let original_text := lit "Paris is the capital (https://example.com/1)." in
  let excerpt := lit "Paris is the capital." in
  let logical := (build_position_map original_text).1 in
  let pmap := (build_position_map original_text).2 in
  let excerpt_logical := (build_position_map excerpt).1 in
  find original_text excerpt = None
  ∧ locate original_text logical pmap excerpt = Ok (Some 0, Some 45)
  ∧ ∃ p,
      find logical excerpt_logical = Some p
      ∧ pmap !! p = Some 0
      ∧ (∃ b, pmap !! (p + length excerpt_logical - 1) = Some b ∧ 45 = b + 1)
      ∧ ∀ k c,
          excerpt_logical !! k = Some c →
          ∃ j, pmap !! (p + k) = Some j ∧ 0 ≤ j < 45 ∧ original_text !! j = Some c.
Proof.
  intros original_text excerpt logical pmap excerpt_logical.
  assert (find original_text excerpt = None) as Hex by (by vm_compute).
  assert (locate original_text logical pmap excerpt = Ok (Some 0, Some 45)) as Hl
    by (by vm_compute).
  split; [exact Hex|]. split; [exact Hl|].
  exact (fallback_characters_in_range original_text excerpt 0 45 Hex Hl).
Defined.

(** X5. The ranges that [highlight_text] collects: the loop raises nothing;
    every range is non-empty and lies within the text; there is at most one
    range per issue, in the order of the issues. *)
Theorem highlight_ranges_well_formed original_text issues sm si sq :
  ∃ highlight_ranges,
    locate_all original_text (build_position_map original_text).1
      (build_position_map original_text).2 (filter_issues sm si sq 0 issues)
    = Ok highlight_ranges
    ∧ Forall (λ hr, hr_start hr < hr_end hr ≤ length original_text) highlight_ranges
    ∧ StronglySorted lt (issue_index <$> highlight_ranges)
    ∧ Forall (λ hr, issue_index hr < length issues) highlight_ranges.
Proof.
  destruct (locate_all_spec original_text _ (filter_issues_sorted sm si sq issues))
    as (hrs & Hrun & Hidx & Hall).
  exists hrs. split_and!; [done| | |].
  - eapply Forall_impl; [exact Hall|]. by intros hr [? _].
  - by apply (StronglySorted_fmap issue_index by_index lt).
  - eapply Forall_impl; [exact Hall|].
    intros hr (_ & entry & Hin%filter_issues_lookup & -> & _).
    by eapply lookup_lt_Some.
Qed.

(** ** Segments and the ranges that cover them *)

Lemma adjacent_gap original_text position_issues positions s :
  StronglySorted lt positions →
  s ∈ adjacent original_text position_issues positions →
  seg_start s ∈ positions ∧ seg_end s ∈ positions
  ∧ seg_start s < seg_end s
  ∧ ∀ x, x ∈ positions → ¬ (seg_start s < x < seg_end s).
Proof.
  induction positions as [|a [|b rest] IH]; [by intros _ ?%elem_of_nil..|].
  intros Hs. apply StronglySorted_cons in Hs as [Ha Hs].
  rewrite adjacent_cons_cons. intros [->|Hin]%elem_of_cons.
  - cbn [make_segment seg_start seg_end].
    apply Forall_cons in Ha as Hab. destruct Hab as [Hab _].
    split_and!; [by left|by right; left|done|].
    intros x [->|[->|Hx]%elem_of_cons]%elem_of_cons; [lia..|].
    apply StronglySorted_cons in Hs as [Hb _].
    rewrite Forall_forall in Hb. specialize (Hb x Hx). lia.
  - destruct (IH Hs Hin) as (Hst & Hen & Hlt & Hgap).
    split_and!; [by right|by right|done|].
    intros x [->|Hx]%elem_of_cons; [|by apply Hgap].
    rewrite Forall_forall in Ha. specialize (Ha _ Hst). lia.
Qed.

Lemma filter_ext_in {A} (P Q : A → Prop)
    `{!∀ x, Decision (P x)} `{!∀ x, Decision (Q x)} (l : list A) :
  (∀ x, x ∈ l → P x ↔ Q x) → filter P l = filter Q l.
Proof.
  induction l as [|x l IH]; intros Hext; [done|].
  rewrite !filter_cons, IH by (intros y Hy; apply Hext; by right).
  destruct (Hext x ltac:(by left)) as [HPQ HQP].
  destruct (decide (P x)), (decide (Q x)); try done; tauto.
Qed.

(** Every position of a segment is covered by the same ranges, because the
    ends of every range are among the boundaries. *)
Lemma partition_cover original_text highlight_ranges :
  Forall (λ hr, hr_start hr < hr_end hr ≤ length original_text) highlight_ranges →
  ∃ segments,
    partition original_text highlight_ranges = Ok segments
    ∧ segments = adjacent original_text
                   (build_position_issues (sort_by_start highlight_ranges))
                   (positions original_text (sort_by_start highlight_ranges))
    ∧ tiles 0 segments (length original_text)
    ∧ Forall (λ s,
        seg_start s < seg_end s
        ∧ (s = make_segment original_text
                 (build_position_issues (sort_by_start highlight_ranges))
                 (seg_start s) (seg_end s))
        ∧ (seg_start s ∈ positions original_text (sort_by_start highlight_ranges))
        ∧ (seg_end s ∈ positions original_text (sort_by_start highlight_ranges))
        ∧ ∀ pos, seg_start s ≤ pos < seg_end s →
            seg_issues s = filter (covers pos) (sort_by_start highlight_ranges))
        segments.
Proof.
  intros Hall.
  assert (Forall (within original_text) highlight_ranges) as Hin.
  { eapply Forall_impl; [exact Hall|]. intros hr [? ?]. unfold within. lia. }
  destruct (partition_spec original_text highlight_ranges Hin)
    as (segs & Hrun & Htiles & _ & _).
  exists segs. split; [done|].
  unfold partition in Hrun. rewrite build_segments_Ok in Hrun.
  injection Hrun as <-. split_and!; [done..|].
  apply Forall_forall. intros s Hs.
  destruct (adjacent_gap _ _ _ s (sorted_set_sorted _) Hs)
    as (Hst & Hen & Hlt & Hgap).
  pose proof (adjacent_elem _ _ _ _ Hs) as Heq.
  split_and!; [done..|]. intros pos Hpos.
  rewrite Heq. cbn [make_segment seg_issues].
  rewrite build_position_issues_lookup.
  apply filter_ext_in. intros hr Hhr.
  assert (hr_start hr ∈ positions original_text (sort_by_start highlight_ranges)
          ∧ hr_end hr ∈ positions original_text (sort_by_start highlight_ranges))
    as [Hs1 Hs2].
  { unfold positions. rewrite !elem_of_sorted_set, !elem_of_app, !list_elem_of_fmap.
    split; [right; left|right; right]; by exists hr. }
  apply Hgap in Hs1, Hs2. unfold covers. lia.
Qed.

(** The whole of lines 173-255 at once: the ranges, the segments, and how
    they relate. *)
Lemma highlight_pipeline original_text issues sm si sq :
  ∃ highlight_ranges segments,
    locate_all original_text (build_position_map original_text).1
      (build_position_map original_text).2 (filter_issues sm si sq 0 issues)
    = Ok highlight_ranges
    ∧ highlight_segments original_text (filter_issues sm si sq 0 issues)
      = Ok segments
    ∧ StronglySorted by_index highlight_ranges
    ∧ Forall (λ hr, hr_start hr < hr_end hr ≤ length original_text
                    ∧ ∃ entry, entry ∈ filter_issues sm si sq 0 issues
                               ∧ located_for original_text entry hr)
             highlight_ranges
    ∧ segments = adjacent original_text
                   (build_position_issues (sort_by_start highlight_ranges))
                   (positions original_text (sort_by_start highlight_ranges))
    ∧ tiles 0 segments (length original_text)
    ∧ Forall (λ s,
        seg_start s < seg_end s
        ∧ (s = make_segment original_text
                 (build_position_issues (sort_by_start highlight_ranges))
                 (seg_start s) (seg_end s))
        ∧ (seg_start s ∈ positions original_text (sort_by_start highlight_ranges))
        ∧ (seg_end s ∈ positions original_text (sort_by_start highlight_ranges))
        ∧ ∀ pos, seg_start s ≤ pos < seg_end s →
            seg_issues s = filter (covers pos) (sort_by_start highlight_ranges))
        segments.
Proof.
  destruct (highlight_segments_spec original_text _
              (filter_issues_sorted sm si sq issues))
    as (hrs & segs & Hrun & Hidx & Hall & Hsegs & Hpart).
  destruct (partition_cover original_text hrs)
    as (segs' & Hpart' & Hadj & Htiles & Hcov).
  { eapply Forall_impl; [exact Hall|]. by intros hr [? _]. }
  rewrite Hpart in Hpart'. injection Hpart' as <-.
  by exists hrs, segs.
Qed.

Lemma elem_of_covering highlight_ranges s pos hr :
  seg_issues s = filter (covers pos) (sort_by_start highlight_ranges) →
  hr ∈ seg_issues s ↔ hr ∈ highlight_ranges ∧ covers pos hr.
Proof.
  intros ->. rewrite list_elem_of_filter, sort_by_start_perm. tauto.
Qed.

(** X6. In the segments of a call, every offset of a segment is covered by
    the same ranges, and they are the ones the segment lists: a located
    range is in the covering list of a segment exactly if it contains any
    given offset of the segment, and exactly if it contains the whole
    segment. *)
Theorem segment_covering_constant original_text issues sm si sq :
  ∃ highlight_ranges segments,
    locate_all original_text (build_position_map original_text).1
      (build_position_map original_text).2 (filter_issues sm si sq 0 issues)
    = Ok highlight_ranges
    ∧ highlight_segments original_text (filter_issues sm si sq 0 issues)
      = Ok segments
    ∧ Forall (λ s,
        (∀ pos hr, seg_start s ≤ pos < seg_end s →
           hr ∈ seg_issues s ↔ hr ∈ highlight_ranges ∧ covers pos hr)
        ∧ (∀ hr,
             hr ∈ seg_issues s
             ↔ hr ∈ highlight_ranges
               ∧ hr_start hr ≤ seg_start s ∧ seg_end s ≤ hr_end hr))
        segments.
Proof.
  destruct (highlight_pipeline original_text issues sm si sq)
    as (hrs & segs & Hrun & Hsegs & _ & _ & _ & _ & Hcov).
  exists hrs, segs. split_and!; [done..|].
  eapply Forall_impl; [exact Hcov|]. intros s (Hlt & _ & _ & _ & Hconst).
  split.
  - intros pos hr Hpos. by apply elem_of_covering, Hconst.
  - intros hr.
    rewrite (elem_of_covering hrs s (seg_start s)) by (apply Hconst; lia).
    split.
    + intros [Hin Hc]. split; [done|]. split; [apply Hc|].
      assert (hr ∈ seg_issues s) as Hhr.
      { apply (elem_of_covering hrs s (seg_start s));
          [apply Hconst; lia|done]. }
      apply (elem_of_covering hrs s (seg_end s - 1)) in Hhr
        as [_ Hc']; [|apply Hconst; lia].
      unfold covers in Hc'. lia.
    + intros (Hin & Hs & He). split; [done|]. unfold covers. lia.
Qed.

(** X6, at a concrete input: issue 1 quotes "abcdefghij" and issue 2 quotes
    "fghijklmno" in a text of 20 letters; offset 7 lies in the segment
    5..10. *)
Lemma segment_covering_constant_witness :
  let original_text := lit "abcdefghijklmnopqrst" in
  let issues := [Issue (Some (lit "abcdefghij")) None None None;
                 Issue (Some (lit "fghijklmno")) None None None] in
  ∃ (highlight_ranges : list highlight_range) segments s,
    highlight_segments original_text (filter_issues true true true 0 issues)
    = Ok segments
    ∧ segments !! 1 = Some s
    ∧ seg_start s ≤ 7 < seg_end s
    ∧ (∀ hr, hr ∈ seg_issues s ↔ hr ∈ highlight_ranges ∧ covers 7 hr)
    ∧ (∀ hr, hr ∈ seg_issues s
             ↔ hr ∈ highlight_ranges ∧ hr_start hr ≤ 5 ∧ 10 ≤ hr_end hr).
Proof.
  intros original_text issues.
  destruct (segment_covering_constant original_text issues true true true)
    as (hrs & segs & _ & Hrun & Hcov).
  vm_compute in Hrun. injection Hrun as <-.
  apply Forall_cons in Hcov as [_ Hcov]. apply Forall_cons in Hcov as [Hcov _].
  destruct Hcov as [Hpos Hwhole].
  eexists hrs, _, _. split; [by vm_compute|]. split; [reflexivity|].
  split; [simpl; lia|]. split.
  - intros hr. apply (Hpos 7 hr). simpl. lia.
  - exact Hwhole.
Defined.

Lemma tiles_consecutive a segs b i s1 s2 :
  tiles a segs b → segs !! i = Some s1 → segs !! S i = Some s2 →
  seg_end s1 = seg_start s2.
Proof.
  revert a i. induction segs as [|s segs IH]; intros a i Ht H1 H2; [done|].
  destruct Ht as (_ & _ & Ht). destruct i as [|i]; simpl in H1, H2.
  - simplify_eq. destruct segs as [|s' segs]; [done|].
    simpl in H2. simplify_eq. by destruct Ht as (-> & _).
  - by eapply IH.
Qed.

Lemma positions_bound original_text highlight_ranges x :
  Forall (within original_text) highlight_ranges →
  x ∈ positions original_text highlight_ranges →
  x ≤ length original_text
  ∧ (x = 0 ∨ x = length original_text
     ∨ ∃ hr, hr ∈ highlight_ranges ∧ (x = hr_start hr ∨ x = hr_end hr)).
Proof.
  intros Hall Hx. unfold positions in Hx.
  apply (proj1 (elem_of_sorted_set _ _)) in Hx.
  rewrite Forall_forall in Hall. unfold within in Hall.
  rewrite !elem_of_app, !list_elem_of_fmap in Hx.
  destruct Hx as [Hx|[(hr & -> & Hin)|(hr & -> & Hin)]].
  - set_unfold in Hx. split; [lia|]. destruct Hx as [->|[->|[]]]; auto.
  - specialize (Hall hr Hin). split; [lia|]. right; right. eauto.
  - specialize (Hall hr Hin). split; [lia|]. right; right. eauto.
Qed.

(** X7. Segments are maximal: two consecutive segments of a call never have
    the same covering list, since the boundary between them is the start or
    the end of a located range. *)
Theorem consecutive_segments_differ original_text issues sm si sq :
  ∃ segments,
    highlight_segments original_text (filter_issues sm si sq 0 issues)
    = Ok segments
    ∧ ∀ i s1 s2,
        segments !! i = Some s1 → segments !! S i = Some s2 →
        seg_end s1 = seg_start s2 ∧ seg_issues s1 ≠ seg_issues s2.
Proof.
  destruct (highlight_pipeline original_text issues sm si sq)
    as (hrs & segs & _ & Hsegs & _ & Hall & _ & Htiles & Hcov).
  exists segs. split; [done|]. intros i s1 s2 H1 H2.
  pose proof (tiles_consecutive _ _ _ _ _ _ Htiles H1 H2) as Hb.
  split; [done|].
  rewrite Forall_forall in Hcov.
  destruct (Hcov s1) as (Hlt1 & _ & _ & _ & Hc1); [by eapply list_elem_of_lookup_2|].
  destruct (Hcov s2) as (Hlt2 & _ & Hst2 & Hen2 & Hc2); [by eapply list_elem_of_lookup_2|].
  assert (Forall (within original_text) (sort_by_start hrs)) as Hwithin.
  { rewrite sort_by_start_perm. eapply Forall_impl; [exact Hall|].
    intros hr [? _]. unfold within. lia. }
  apply (positions_bound _ _ _ Hwithin) in Hen2 as [Hle2 _].
  apply (positions_bound _ _ _ Hwithin) in Hst2
    as [_ [?|[?|(hr & Hin & Hhr)]]]; [lia..|].
  rewrite sort_by_start_perm in Hin.
  assert (hr_start hr < hr_end hr) as Hne.
  { rewrite Forall_forall in Hall. by destruct (Hall hr Hin) as [[? _] _]. }
  intros Heq. destruct Hhr as [Hhr|Hhr].
  - (* the boundary starts [hr]: it covers the second segment only *)
    assert (hr ∈ seg_issues s2) as Hin2.
    { apply (elem_of_covering hrs s2 (seg_start s2)); [apply Hc2; lia|].
      split; [done|]. unfold covers. lia. }
    rewrite <- Heq in Hin2.
    apply (elem_of_covering hrs s1 (seg_start s1)) in Hin2 as [_ Hc];
      [|apply Hc1; lia].
    unfold covers in Hc. lia.
  - (* the boundary ends [hr]: it covers the first segment only *)
    assert (hr ∈ seg_issues s1) as Hin1.
    { apply (elem_of_covering hrs s1 (seg_end s1 - 1)); [apply Hc1; lia|].
      split; [done|]. unfold covers. lia. }
    rewrite Heq in Hin1.
    apply (elem_of_covering hrs s2 (seg_start s2)) in Hin1 as [_ Hc];
      [|apply Hc2; lia].
    unfold covers in Hc. lia.
Qed.

(** X7, at a concrete input: issue 1 quotes "abcdefghij" and issue 2 quotes
    "fghijklmno" in a text of 20 letters. *)
Lemma consecutive_segments_differ_witness :
  let original_text := lit "abcdefghijklmnopqrst" in
  let issues := [Issue (Some (lit "abcdefghij")) None None None;
                 Issue (Some (lit "fghijklmno")) None None None] in
  ∃ segments s1 s2,
    highlight_segments original_text (filter_issues true true true 0 issues)
    = Ok segments
    ∧ segments !! 1 = Some s1 ∧ segments !! 2 = Some s2
    ∧ seg_start s1 = 5 ∧ seg_end s1 = 10 ∧ seg_start s2 = 10
    ∧ seg_issues s1 ≠ seg_issues s2.
Proof.
  intros original_text issues.
  destruct (consecutive_segments_differ original_text issues true true true)
    as (segs & Hrun & Hdiff).
  vm_compute in Hrun. injection Hrun as <-.
  eexists _, _, _. split; [by vm_compute|].
  split; [reflexivity|]. split; [reflexivity|].
  split_and!; [reflexivity..|].
  exact (proj2 (Hdiff 1 _ _ eq_refl eq_refl)).
Defined.

Lemma adjacent_length original_text position_issues positions :
  length (adjacent original_text position_issues positions) = length positions - 1.
Proof.
  induction positions as [|a [|b rest] IH]; [done..|].
  rewrite adjacent_cons_cons, !length_cons, IH, length_cons. lia.
Qed.

Lemma sorted_set_length l : length (sorted_set l) ≤ length l.
Proof.
  unfold sorted_set. rewrite merge_sort_Permutation.
  apply submseteq_length, NoDup_submseteq; [apply NoDup_elements|].
  intros x. rewrite elem_of_elements. apply elem_of_list_to_set.
Qed.

Lemma filter_issues_length sm si sq idx issues :
  length (filter_issues sm si sq idx issues) ≤ length issues.
Proof.
  revert idx. induction issues as [|iss rest IH]; intros idx; simpl; [done|].
  specialize (IH (S idx)). destruct (hidden _ _ _ _); simpl; lia.
Qed.

Lemma locate_all_length original_text stripped pmap filtered_issues hrs :
  locate_all original_text stripped pmap filtered_issues = Ok hrs →
  length hrs ≤ length filtered_issues.
Proof.
  revert hrs. induction filtered_issues as [|[idx iss] rest IH]; intros hrs.
  { by intros [= <-]. }
  cbn [locate_all]. destruct (get_excerpt iss) as [|c e].
  { intros Hrun. specialize (IH _ Hrun). simpl. lia. }
  destruct (locate _ _ _ _) as [[start_pos end_pos]|]; [|done]. cbn [obind].
  destruct (locate_all _ _ _ rest) as [found|]; [|by destruct start_pos, end_pos].
  specialize (IH _ eq_refl). cbn [obind].
  destruct start_pos, end_pos; intros [= <-]; simpl; lia.
Qed.

Lemma sorted_lt_NoDup (l : list nat) : StronglySorted lt l → NoDup l.
Proof.
  induction 1 as [|x l Hs IH Hx]; constructor; [|done].
  rewrite Forall_forall in Hx. intros Hin. specialize (Hx x Hin). lia.
Qed.

Lemma NoDup_fmap_filter {A B} (f : A → B) (P : A → Prop)
    `{!∀ x, Decision (P x)} (l : list A) :
  NoDup (f <$> l) → NoDup (f <$> filter P l).
Proof.
  induction l as [|x l IH]; [done|]. rewrite fmap_cons, NoDup_cons.
  intros [Hx Hnd]. rewrite filter_cons. destruct (decide (P x)); [|by apply IH].
  rewrite fmap_cons. apply NoDup_cons. split; [|by apply IH].
  intros (y & Hy & [_ Hin]%list_elem_of_filter)%list_elem_of_fmap.
  apply Hx, list_elem_of_fmap. eauto.
Qed.

(** X8. The size of the output of a call over [n] issues: at most [2n + 1]
    segments, and in every segment a covering list without a repeated issue
    and of at most [n] entries. *)
Theorem segments_size_bound original_text issues sm si sq :
  ∃ segments,
    highlight_segments original_text (filter_issues sm si sq 0 issues)
    = Ok segments
    ∧ length segments ≤ 2 * length issues + 1
    ∧ Forall (λ s, NoDup (issue_index <$> seg_issues s)
                   ∧ length (seg_issues s) ≤ length issues) segments.
Proof.
  destruct (highlight_pipeline original_text issues sm si sq)
    as (hrs & segs & Hrun & Hsegs & Hidx & Hall & Hadj & _ & Hcov).
  assert (length hrs ≤ length issues) as Hlen.
  { etrans; [by eapply locate_all_length|apply filter_issues_length]. }
  assert (length (sort_by_start hrs) = length hrs) as Hsort
    by (by rewrite sort_by_start_perm).
  exists segs. split_and!; [done| |].
  - rewrite Hadj, adjacent_length.
    pose proof (sorted_set_length
                  ([0; length original_text]
                   ++ (hr_start <$> sort_by_start hrs)
                   ++ (hr_end <$> sort_by_start hrs))) as Hle.
    rewrite !length_app, !length_fmap, Hsort in Hle.
    change (length [0; length original_text]) with 2 in Hle.
    unfold positions. lia.
  - eapply Forall_impl; [exact Hcov|]. intros s (Hlt & _ & _ & _ & Hconst).
    rewrite (Hconst (seg_start s)) by lia. split.
    + apply NoDup_fmap_filter. rewrite sort_by_start_perm.
      apply sorted_lt_NoDup.
      by apply (StronglySorted_fmap issue_index by_index lt).
    + etrans; [apply length_filter|]. lia.
Qed.

(** ** Which issues are highlighted *)

Lemma filter_issues_elem sm si sq idx issues entry :
  entry ∈ filter_issues sm si sq idx issues
  ↔ idx ≤ entry.1
    ∧ issues !! (entry.1 - idx) = Some entry.2
    ∧ hidden sm si sq (get_type entry.2) = false.
Proof.
  revert idx. induction issues as [|iss rest IH]; intros idx.
  { simpl. split; [by intros ?%elem_of_nil|]. by intros (_ & ? & _). }
  cbn [filter_issues].
  assert (entry ∈ filter_issues sm si sq (S idx) rest
          ↔ idx < entry.1
            ∧ (iss :: rest) !! (entry.1 - idx) = Some entry.2
            ∧ hidden sm si sq (get_type entry.2) = false) as Htail.
  { rewrite IH. split.
    - intros (Hle & Hl & Hh). split_and!; [lia| |done].
      by replace (entry.1 - idx) with (S (entry.1 - S idx)) by lia.
    - intros (Hlt & Hl & Hh). split_and!; [lia| |done].
      by replace (entry.1 - idx) with (S (entry.1 - S idx)) in Hl by lia. }
  assert (entry = (idx, iss) ∧ hidden sm si sq (get_type iss) = false
          ↔ idx = entry.1
            ∧ (iss :: rest) !! (entry.1 - idx) = Some entry.2
            ∧ hidden sm si sq (get_type entry.2) = false) as Hhead.
  { destruct entry as [i x]. simpl. split.
    - intros [[= -> ->] Hh]. by rewrite Nat.sub_diag.
    - intros (-> & Hl & Hh). rewrite Nat.sub_diag in Hl. simpl in Hl.
      by simplify_eq. }
  destruct (hidden sm si sq (get_type iss)) eqn:Hh.
  - rewrite Htail. split; [intros (? & ? & ?); split; [lia|done]|].
    intros (Hle & Hl & Hh'). split; [|done].
    destruct (decide (idx = entry.1)) as [Heq|]; [|lia].
    assert (entry = (idx, iss) ∧ true = false) as [_ ?]; [|done].
    apply Hhead. done.
  - rewrite elem_of_cons, Htail. split.
    + intros [->|(? & ? & ?)]; [|split; [lia|done]].
      simpl. by rewrite Nat.sub_diag.
    + intros (Hle & Hl & Hh').
      destruct (decide (idx = entry.1)) as [Heq|]; [left|right; split; [lia|done]].
      by apply Hhead.
Qed.

Lemma locate_all_elem original_text stripped pmap filtered_issues hrs hr :
  locate_all original_text stripped pmap filtered_issues = Ok hrs →
  hr ∈ hrs
  ↔ ∃ entry s e,
      entry ∈ filtered_issues
      ∧ get_excerpt entry.2 ≠ []
      ∧ locate original_text stripped pmap (get_excerpt entry.2)
        = Ok (Some s, Some e)
      ∧ hr = range_of entry.1 entry.2 s e.
Proof.
  revert hrs. induction filtered_issues as [|[idx iss] rest IH]; intros hrs.
  { intros [= <-]. split; [by intros ?%elem_of_nil|].
    by intros (? & ? & ? & ?%elem_of_nil & _). }
  cbn [locate_all]. destruct (get_excerpt iss) as [|c ex] eqn:He.
  { intros Hrun. rewrite (IH _ Hrun). split.
    - intros (entry & s & e & Hin & ?). exists entry, s, e. split; [by right|done].
    - intros (entry & s & e & [->|Hin]%elem_of_cons & Hne & ?); [by destruct Hne|].
      by exists entry, s, e. }
  destruct (locate original_text stripped pmap (c :: ex))
    as [[start_pos end_pos]|] eqn:Hl; [|done].
  cbn [obind].
  destruct (locate_all original_text stripped pmap rest) as [found|]; [|done].
  specialize (IH _ eq_refl). cbn [obind].
  assert (hr ∈ found
          ↔ ∃ entry s e,
              entry ∈ rest ∧ get_excerpt entry.2 ≠ []
              ∧ locate original_text stripped pmap (get_excerpt entry.2)
                = Ok (Some s, Some e)
              ∧ hr = range_of entry.1 entry.2 s e) as IH' by done.
  intros Hrun. split.
  - intros Hin.
    assert (hr ∈ found
            ∨ ∃ s e, start_pos = Some s ∧ end_pos = Some e
                     ∧ hr = range_of idx iss s e) as [Hf|(s & e & -> & -> & ->)].
    { destruct start_pos as [s|], end_pos as [e|]; injection Hrun as <-;
        [|by left..].
      apply elem_of_cons in Hin as [->|?]; [right; by eauto|by left]. }
    + apply IH' in Hf as (entry & s & e & ? & ?).
      exists entry, s, e. split; [by right|done].
    + exists (idx, iss), s, e. simpl. rewrite He. split_and!; [by left|done..].
  - intros (entry & s & e & [->|Hin]%elem_of_cons & Hne & Hloc & ->).
    + simpl in Hloc. rewrite He, Hl in Hloc. injection Hloc as -> ->.
      injection Hrun as <-. by left.
    + assert (range_of entry.1 entry.2 s e ∈ found) as Hf.
      { apply IH'. by exists entry, s, e. }
      destruct start_pos, end_pos; injection Hrun as <-; [by right|done..].
Qed.

(** A range of a segment's covering list is one of the collected ranges. *)
Lemma covering_range_origin original_text issues sm si sq hrs segs s hr :
  locate_all original_text (build_position_map original_text).1
    (build_position_map original_text).2 (filter_issues sm si sq 0 issues)
  = Ok hrs →
  partition original_text hrs = Ok segs →
  s ∈ segs → hr ∈ seg_issues s →
  ∃ iss,
    issues !! issue_index hr = Some iss
    ∧ hidden sm si sq (get_type iss) = false
    ∧ get_excerpt iss ≠ []
    ∧ locate original_text (build_position_map original_text).1
        (build_position_map original_text).2 (get_excerpt iss)
      = Ok (Some (hr_start hr), Some (hr_end hr))
    ∧ hr = range_of (issue_index hr) iss (hr_start hr) (hr_end hr).
Proof.
  intros Hrun Hpart Hs Hhr.
  unfold partition in Hpart. rewrite build_segments_Ok in Hpart.
  injection Hpart as <-. apply adjacent_elem in Hs. rewrite Hs in Hhr.
  cbn [make_segment seg_issues] in Hhr.
  rewrite build_position_issues_lookup in Hhr.
  apply list_elem_of_filter in Hhr as [_ Hin].
  rewrite sort_by_start_perm in Hin.
  apply (locate_all_elem _ _ _ _ _ _ Hrun) in Hin
    as ([k iss] & st & en & Hentry & Hne & Hloc & ->).
  apply filter_issues_elem in Hentry as (_ & Hk & Hvis).
  simpl in *. rewrite Nat.sub_0_r in Hk. by exists iss.
Qed.

(** X9. Every entry of a covering list stems from an issue of the caller's
    list that passes the visibility filter and whose trimmed excerpt is not
    empty: its [issue_index] is the position of that issue in the list, its
    range is what [locate] found for the excerpt, and its type, explanation
    and sources are those of the issue. *)
Theorem covering_entries_are_issues original_text issues sm si sq :
  ∃ segments,
    highlight_segments original_text (filter_issues sm si sq 0 issues)
    = Ok segments
    ∧ Forall (λ s, Forall (λ hr,
        ∃ iss,
          issues !! issue_index hr = Some iss
          ∧ hidden sm si sq (get_type iss) = false
          ∧ get_excerpt iss ≠ []
          ∧ locate original_text (build_position_map original_text).1
              (build_position_map original_text).2 (get_excerpt iss)
            = Ok (Some (hr_start hr), Some (hr_end hr))
          ∧ hr = range_of (issue_index hr) iss (hr_start hr) (hr_end hr))
        (seg_issues s)) segments.
Proof.
  destruct (highlight_segments_spec original_text _
              (filter_issues_sorted sm si sq issues))
    as (hrs & segs & Hrun & _ & _ & Hsegs & Hpart).
  exists segs. split; [done|].
  apply Forall_forall. intros s Hs. apply Forall_forall. intros hr Hhr.
  by eapply covering_range_origin.
Qed.

(** X10. An issue that the visibility flags hide is never highlighted: no
    covering list of the call holds a range of its index. *)
Theorem hidden_issue_not_highlighted original_text issues sm si sq
    (k : nat) (iss : issue) :
  issues !! k = Some iss →
  hidden sm si sq (get_type iss) = true →
  ∃ segments,
    highlight_segments original_text (filter_issues sm si sq 0 issues)
    = Ok segments
    ∧ Forall (λ s, Forall (λ hr, issue_index hr ≠ k) (seg_issues s)) segments.
Proof.
  intros Hk Hhidden.
  destruct (highlight_segments_spec original_text _
              (filter_issues_sorted sm si sq issues))
    as (hrs & segs & Hrun & _ & _ & Hsegs & Hpart).
  exists segs. split; [done|].
  apply Forall_forall. intros s Hs. apply Forall_forall. intros hr Hhr Heq.
  destruct (covering_range_origin _ _ _ _ _ _ _ _ _ Hrun Hpart Hs Hhr)
    as (iss' & Hk' & Hvis & _).
  rewrite Heq, Hk in Hk'. injection Hk' as <-. congruence.
Qed.

(** X10, at a concrete input: the questionable issue 1 is hidden, the
    misleading issue 2 is shown. *)
Lemma hidden_issue_not_highlighted_witness :
  let original_text := lit "The sky is green and the sea is red." in
  let hidden_issue := Issue (Some (lit "The sky is green")) None None None in
  let shown_issue :=
    Issue (Some (lit "the sea is red")) (Some (lit "misleading")) None None in
  let issues := [hidden_issue; shown_issue] in
  issues !! 0 = Some hidden_issue
  ∧ hidden true true false (get_type hidden_issue) = true
  ∧ ∃ segments,
      highlight_segments original_text (filter_issues true true false 0 issues)
      = Ok segments
      ∧ length segments = 3
      ∧ Forall (λ s, Forall (λ hr, issue_index hr ≠ 0) (seg_issues s)) segments.
Proof.
  intros original_text hidden_issue shown_issue issues.
  destruct (hidden_issue_not_highlighted original_text issues true true false
              0 hidden_issue eq_refl eq_refl) as (segs & Hrun & Hno).
  split; [reflexivity|]. split; [reflexivity|].
  exists segs. split; [exact Hrun|]. split; [|exact Hno].
  vm_compute in Hrun. by injection Hrun as <-.
Defined.

Lemma adjacent_start original_text position_issues positions x z :
  x ∈ positions → last positions = Some z → x ≠ z →
  ∃ s, s ∈ adjacent original_text position_issues positions ∧ seg_start s = x.
Proof.
  induction positions as [|a [|b rest] IH]; intros Hx Hlast Hne.
  - by apply elem_of_nil in Hx.
  - apply list_elem_of_singleton in Hx as ->. simpl in Hlast. congruence.
  - rewrite adjacent_cons_cons. apply elem_of_cons in Hx as [->|Hx].
    + eexists. split; [by left|done].
    + rewrite last_cons_cons in Hlast.
      destruct (IH Hx Hlast Hne) as (s & Hs & Hst).
      exists s. split; [by right|done].
Qed.

(** X11. An issue that passes the visibility filter and for whose non-empty
    trimmed excerpt [locate] finds the range from [s] to [e] is highlighted
    over exactly that range: a segment starts at [s] and lists the issue,
    and a segment lists the issue exactly if it lies between [s] and [e]. *)
Theorem visible_located_issue_highlighted original_text issues sm si sq
    (k : nat) (iss : issue) (s e : nat) :
  issues !! k = Some iss →
  hidden sm si sq (get_type iss) = false →
  get_excerpt iss ≠ [] →
  locate original_text (build_position_map original_text).1
    (build_position_map original_text).2 (get_excerpt iss)
  = Ok (Some s, Some e) →
  ∃ segments,
    highlight_segments original_text (filter_issues sm si sq 0 issues)
    = Ok segments
    ∧ (∃ seg, seg ∈ segments ∧ seg_start seg = s
              ∧ range_of k iss s e ∈ seg_issues seg)
    ∧ Forall (λ seg,
        range_of k iss s e ∈ seg_issues seg
        ↔ s ≤ seg_start seg ∧ seg_end seg ≤ e) segments.
Proof.
  intros Hk Hvis Hne Hloc.
  destruct (highlight_pipeline original_text issues sm si sq)
    as (hrs & segs & Hrun & Hsegs & _ & Hall & Hadj & _ & Hcov).
  set (hr := range_of k iss s e).
  assert (hr ∈ hrs) as Hin.
  { apply (locate_all_elem _ _ _ _ _ _ Hrun). exists (k, iss), s, e.
    split_and!; [|done..]. apply filter_issues_elem. simpl.
    rewrite Nat.sub_0_r. split_and!; [lia|done..]. }
  assert (s < e ≤ length original_text) as Hbounds.
  { rewrite Forall_forall in Hall. by destruct (Hall hr Hin) as [? _]. }
  assert (Forall (λ seg, hr ∈ seg_issues seg ↔ s ≤ seg_start seg ∧ seg_end seg ≤ e)
            segs) as Hiff.
  { eapply Forall_impl; [exact Hcov|]. intros seg (Hlt & _ & _ & _ & Hconst).
    rewrite (elem_of_covering hrs seg (seg_start seg)) by (apply Hconst; lia).
    split.
    - intros [_ Hc]. split; [apply Hc|].
      assert (hr ∈ seg_issues seg) as Hhr.
      { apply (elem_of_covering hrs seg (seg_start seg));
          [apply Hconst; lia|done]. }
      apply (elem_of_covering hrs seg (seg_end seg - 1)) in Hhr
        as [_ Hc']; [|apply Hconst; lia].
      unfold covers in Hc'. simpl in Hc'. lia.
    - intros [Hs He]. split; [done|]. unfold covers. simpl. lia. }
  exists segs. split_and!; [done| |done].
  assert (Forall (within original_text) (sort_by_start hrs)) as Hwithin.
  { rewrite sort_by_start_perm. eapply Forall_impl; [exact Hall|].
    intros hr' [? _]. unfold within. lia. }
  destruct (positions_ends _ _ Hwithin) as (_ & _ & _ & Hlast).
  destruct (adjacent_start original_text
              (build_position_issues (sort_by_start hrs))
              (positions original_text (sort_by_start hrs)) s
              (length original_text)) as (seg & Hseg & Hst); [|done|lia|].
  { unfold positions. rewrite elem_of_sorted_set, !elem_of_app, !list_elem_of_fmap.
    right; left. exists hr. split; [done|]. by rewrite sort_by_start_perm. }
  rewrite <- Hadj in Hseg. exists seg. split_and!; [done..|].
  rewrite Forall_forall in Hiff, Hcov. apply (Hiff seg Hseg).
  destruct (Hcov seg Hseg) as (Hlt & _ & _ & Hen & Hconst).
  split; [lia|].
  (* the segment that starts at [s] ends at the next boundary, which is not
     beyond [e] *)
  assert (hr ∈ seg_issues seg) as Hhr.
  { apply (elem_of_covering hrs seg (seg_start seg)); [apply Hconst; lia|].
    split; [done|]. unfold covers. simpl. lia. }
  apply (elem_of_covering hrs seg (seg_end seg - 1)) in Hhr as [_ Hc];
    [|apply Hconst; lia].
  unfold covers in Hc. simpl in Hc. lia.
Qed.

(** X11, at a concrete input: the excerpt "sky is green" is found at 4..16
    of a text of 17 characters. *)
Lemma visible_located_issue_highlighted_witness :
  let original_text := lit "The sky is green." in
  let iss := Issue (Some (lit " sky is green ")) (Some (lit "misleading")) None None in
  hidden true true true (get_type iss) = false
  ∧ get_excerpt iss ≠ []
  ∧ locate original_text (build_position_map original_text).1
      (build_position_map original_text).2 (get_excerpt iss)
    = Ok (Some 4, Some 16)
  ∧ ∃ segments,
      highlight_segments original_text (filter_issues true true true 0 [iss])
      = Ok segments
      ∧ (∃ seg, seg ∈ segments ∧ seg_start seg = 4
                ∧ range_of 0 iss 4 16 ∈ seg_issues seg)
      ∧ Forall (λ seg,
          range_of 0 iss 4 16 ∈ seg_issues seg
          ↔ 4 ≤ seg_start seg ∧ seg_end seg ≤ 16) segments.
Proof.
  intros original_text iss.
  assert (hidden true true true (get_type iss) = false) as Hvis by reflexivity.
  assert (get_excerpt iss ≠ []) as Hne by (vm_compute; discriminate).
  assert (locate original_text (build_position_map original_text).1
            (build_position_map original_text).2 (get_excerpt iss)
          = Ok (Some 4, Some 16)) as Hloc by (by vm_compute).
  split; [exact Hvis|]. split; [exact Hne|]. split; [exact Hloc|].
  exact (visible_located_issue_highlighted original_text [iss] true true true
           0 iss 4 16 eq_refl Hvis Hne Hloc).
Defined.

Lemma render_plain (title : str → str) segments :
  Forall (λ s, seg_issues s = []) segments →
  render title segments = concat (seg_text <$> segments).
Proof.
  unfold render. induction 1 as [|s segs Hs _ IH]; [done|].
  rewrite !fmap_cons, !concat_cons, IH. unfold render_segment. by rewrite Hs.
Qed.

(** X12. If no issue of the list is both visible and locatable,
    [highlight_text] returns the text unchanged: without mark-up, and
    without an exception. *)
Theorem nothing_to_highlight (title : str → str) original_text issues sm si sq :
  Forall (λ iss, ¬ highlightable original_text sm si sq iss) issues →
  highlight_text title original_text issues sm si sq = Ok original_text.
Proof.
  intros Hnone. unfold highlight_text.
  destruct issues as [|iss0 issues0] eqn:Hissues; [done|]. rewrite <- Hissues in *.
  destruct (filter_issues sm si sq 0 issues) as [|entry0 filtered0] eqn:Hf; [done|].
  rewrite <- Hf.
  destruct (highlight_segments_spec original_text _
              (filter_issues_sorted sm si sq issues))
    as (hrs & segs & Hrun & _ & _ & -> & Hpart).
  cbn [obind]. f_equal.
  assert (hrs = []) as ->.
  { destruct hrs as [|hr hrs]; [done|]. exfalso.
    assert (hr ∈ hr :: hrs) as Hin by (by left).
    apply (locate_all_elem _ _ _ _ _ _ Hrun) in Hin
      as ([k iss] & s & e & Hentry & Hne & Hloc & _).
    apply filter_issues_elem in Hentry as (_ & Hk & Hvis). simpl in *.
    rewrite Forall_forall in Hnone.
    apply (Hnone iss); [by eapply list_elem_of_lookup_2|].
    split_and!; [done..|]. by exists s, e. }
  destruct (partition_spec original_text []) as (segs' & Hpart' & _ & Hconcat & Hs).
  { constructor. }
  rewrite Hpart in Hpart'. injection Hpart' as <-.
  rewrite render_plain; [done|].
  eapply Forall_impl; [exact Hs|]. by intros s [_ ->].
Qed.

(** X12, at a concrete input: one issue is hidden, the other quotes a phrase
    that is not in the text. *)
Lemma nothing_to_highlight_witness :
  let original_text := lit "The sky is green." in
  let issues := [Issue (Some (lit "sky")) (Some (lit "incomplete")) None None;
                 Issue (Some (lit "the sea")) None None None] in
  Forall (λ iss, ¬ highlightable original_text true false true iss) issues
  ∧ highlight_text (λ t, t) original_text issues true false true = Ok original_text.
Proof.
  intros original_text issues.
  assert (Forall (λ iss, ¬ highlightable original_text true false true iss) issues)
    as Hnone.
  { repeat constructor.
    - intros (Hvis & _). vm_compute in Hvis. discriminate.
    - intros (_ & _ & s & e & Hloc). vm_compute in Hloc. discriminate. }
  split; [exact Hnone|].
  exact (nothing_to_highlight (λ t, t) original_text issues true false true Hnone).
Defined.

(** ** The visibility filter *)

Lemma hidden_iff sm si sq t :
  hidden sm si sq t = true
  ↔ (t = lit "misleading" ∧ sm = false)
    ∨ (t = lit "incomplete" ∧ si = false)
    ∨ (t = lit "questionable" ∧ sq = false).
Proof.
  unfold hidden.
  rewrite !orb_true_iff, !andb_true_iff, !bool_decide_eq_true, !negb_true_iff.
  tauto.
Qed.

(** X13. [filtered_issues] holds exactly the issues that are not hidden,
    each with its position in the caller's list, in the order of the list.
    An issue is hidden exactly if its type, ['questionable'] when the key is
    missing, is one of the three kinds and the flag of that kind is off; an
    issue of any other type is always kept. *)
Theorem filter_issues_semantics sm si sq issues :
  (∀ idx iss,
     (idx, iss) ∈ filter_issues sm si sq 0 issues
     ↔ issues !! idx = Some iss ∧ hidden sm si sq (get_type iss) = false)
  ∧ StronglySorted lt ((λ entry, entry.1) <$> filter_issues sm si sq 0 issues)
  ∧ (∀ iss,
       hidden sm si sq (get_type iss) = true
       ↔ (get_type iss = lit "misleading" ∧ sm = false)
         ∨ (get_type iss = lit "incomplete" ∧ si = false)
         ∨ (get_type iss = lit "questionable" ∧ sq = false))
  ∧ (∀ excerpt issue sources,
       get_type (Issue excerpt None issue sources) = lit "questionable").
Proof.
  split_and!.
  - intros idx iss. rewrite filter_issues_elem. simpl. rewrite Nat.sub_0_r.
    split; [by intros (_ & ? & ?)|]. intros [? ?]. split_and!; [lia|done..].
  - apply (StronglySorted_fmap _ fst_lt lt); [by intros x y|].
    apply filter_issues_sorted.
  - intros iss. apply hidden_iff.
  - done.
Qed.

Lemma filter_issues_all_shown idx issues :
  filter_issues true true true idx issues = zip (seq idx (length issues)) issues.
Proof.
  revert idx. induction issues as [|iss rest IH]; intros idx; [done|].
  cbn [filter_issues]. rewrite IH.
  assert (hidden true true true (get_type iss) = false) as ->; [|done].
  unfold hidden. cbn [negb]. by rewrite !andb_false_r.
Qed.

(** X14. With the three flags on, as in the only call of [highlight_text]
    (line 520), no issue is filtered out: [filtered_issues] is
    [enumerate(issues)], and [highlight_text] returns the rendering of the
    segments computed from all the issues. *)
Theorem highlight_text_all_shown (title : str → str) original_text issues :
  filter_issues true true true 0 issues = enumerate issues
  ∧ ∃ segments,
      highlight_segments original_text (enumerate issues) = Ok segments
      ∧ highlight_text title original_text issues true true true
        = Ok (if decide (issues = []) then original_text
              else render title segments).
Proof.
  assert (filter_issues true true true 0 issues = enumerate issues) as Hall
    by apply filter_issues_all_shown.
  split; [done|].
  destruct (highlight_segments_spec original_text _
              (filter_issues_sorted true true true issues))
    as (hrs & segs & _ & _ & _ & Hsegs & _).
  rewrite Hall in Hsegs. exists segs. split; [done|].
  unfold highlight_text. rewrite Hall.
  destruct issues as [|iss issues]; [done|].
  rewrite decide_False by done.
  change (enumerate (iss :: issues)) with ((0, iss) :: zip (seq 1 (length issues)) issues) in *.
  by rewrite Hsegs.
Qed.

(** ** The tooltip attribute *)

Lemma replace_char_elem old new s c :
  c ∈ replace_char old new s
  ↔ ∃ y, y ∈ s ∧ c ∈ (if (y =? old)%N then new else [y]).
Proof.
  unfold replace_char. rewrite list_elem_of_bind.
  split; intros (y & ? & ?); by exists y.
Qed.

(** X15. The escaped tooltip contains neither a double quote nor an
    apostrophe, whatever the explanations, sources and types of the issues
    are: the text cannot end the [data-tooltip="..."] attribute it is
    written into. *)
Theorem escaped_tooltip_no_quotes (title : str → str)
    (issues_data : list highlight_range) :
  (34%N ∉ escaped_tooltip title issues_data)
  ∧ (39%N ∉ escaped_tooltip title issues_data).
Proof.
  unfold escaped_tooltip. split.
  - intros (y & Hy & Hc)%replace_char_elem.
    destruct (N.eqb_spec y 39) as [->|Hne].
    { apply list_elem_of_In in Hc. vm_compute in Hc. intuition discriminate. }
    apply list_elem_of_singleton in Hc. subst y.
    destruct (proj1 (replace_char_elem _ _ _ _) Hy) as (z & _ & Hz).
    destruct (z =? 34)%N eqn:Heq.
    { apply list_elem_of_In in Hz. vm_compute in Hz. intuition discriminate. }
    apply list_elem_of_singleton in Hz. subst z. by vm_compute in Heq.
  - intros (y & _ & Hc)%replace_char_elem.
    destruct (y =? 39)%N eqn:Heq.
    { apply list_elem_of_In in Hc. vm_compute in Hc. intuition discriminate. }
    apply list_elem_of_singleton in Hc. subst y. by vm_compute in Heq.
Qed.

(** ** The issue listing *)

Lemma insert_by_key_perm {A} (key : A → nat) x l :
  insert_by_key key x l ≡ₚ x :: l.
Proof.
  induction l as [|y l IH]; simpl; [done|].
  case_bool_decide; [done|]. by rewrite IH, Permutation_swap.
Qed.

Lemma sorted_by_key_perm {A} (key : A → nat) l : sorted_by_key key l ≡ₚ l.
Proof.
  induction l as [|x l IH]; simpl; [done|].
  by rewrite insert_by_key_perm, IH.
Qed.

Lemma insert_by_rank_sorted x l :
  StronglySorted by_rank_then_index l →
  Forall (fst_lt x) l →
  StronglySorted by_rank_then_index (insert_by_key listing_key x l).
Proof.
  unfold fst_lt. induction 1 as [|y l Hs IH Hy]; intros Hx; simpl.
  { repeat constructor. }
  apply Forall_cons in Hx as [Hxy Hx]. case_bool_decide as Hle.
  - constructor; [by constructor|]. constructor.
    { unfold by_rank_then_index. lia. }
    rewrite Forall_forall in Hy. rewrite Forall_forall in Hx.
    apply Forall_forall. intros z Hz.
    specialize (Hy z Hz). specialize (Hx z Hz).
    unfold by_rank_then_index in *. lia.
  - constructor; [by apply IH|].
    rewrite insert_by_key_perm. constructor; [|done].
    unfold by_rank_then_index. lia.
Qed.

Lemma enumerate_from_spec {A} (l : list A) (idx : nat) :
  StronglySorted (λ a b : nat * A, a.1 < b.1) (zip (seq idx (length l)) l)
  ∧ Forall (λ p, idx ≤ p.1 ∧ l !! (p.1 - idx) = Some p.2)
           (zip (seq idx (length l)) l).
Proof.
  revert idx. induction l as [|x l IH]; intros idx; simpl.
  { split; constructor. }
  destruct (IH (S idx)) as [Hs Hall].
  assert (Forall (λ p : nat * A, idx < p.1 ∧ (x :: l) !! (p.1 - idx) = Some p.2)
            (zip (seq (S idx) (length l)) l)) as Hall'.
  { eapply Forall_impl; [exact Hall|]. intros [i y] [Hle Hl]; simpl in *.
    split; [lia|]. by replace (i - idx) with (S (i - S idx)) by lia. }
  split.
  - constructor; [done|]. eapply Forall_impl; [exact Hall'|]. by intros p [? _].
  - constructor; [simpl; by rewrite Nat.sub_diag|].
    eapply Forall_impl; [exact Hall'|]. intros p [? ?]. split; [lia|done].
Qed.

(** X16. The issue listing shows every issue of the caller's list exactly
    once, under its position in the list: [sorted_issues] is a permutation
    of [enumerate(issues)].  It is ordered by the rank of the type
    (misleading, incomplete, questionable, anything else) and, among issues
    of equal rank, by position. *)
Theorem sorted_issues_listing (issues : list issue) :
  sorted_issues issues ≡ₚ enumerate issues
  ∧ length (sorted_issues issues) = length issues
  ∧ (∀ idx iss, (idx, iss) ∈ sorted_issues issues ↔ issues !! idx = Some iss)
  ∧ StronglySorted by_rank_then_index (sorted_issues issues).
Proof.
  assert (sorted_issues issues ≡ₚ enumerate issues) as Hperm
    by apply sorted_by_key_perm.
  destruct (enumerate_from_spec issues 0) as [Hs Hall].
  split_and!; [done| | |].
  - rewrite Hperm. unfold enumerate. rewrite length_zip, length_seq. lia.
  - intros idx iss. rewrite Hperm. unfold enumerate. split.
    + rewrite Forall_forall in Hall. intros [_ Hl]%Hall. simpl in Hl.
      by rewrite Nat.sub_0_r in Hl.
    + intros Hl. apply list_elem_of_lookup. exists idx.
      apply lookup_zip_with_Some. exists idx, iss. split_and!; [done| |done].
      apply lookup_seq. split; [done|]. by eapply lookup_lt_Some.
  - unfold sorted_issues, enumerate. revert Hs.
    generalize (zip (seq 0 (length issues)) issues) as l. clear.
    induction 1 as [|x l Hs IH Hx]; simpl; [constructor|].
    apply insert_by_rank_sorted; [done|]. by rewrite sorted_by_key_perm.
Qed.

(** X17. The excerpt quoted in the listing is never longer than 103
    characters: it is the excerpt itself (or "N/A" when the key is
    missing) if that has at most 100 characters, and otherwise its first 100
    characters followed by three dots. *)
Theorem excerpt_preview_bounded (iss : issue) :
  let excerpt := default (lit "N/A") (i_excerpt iss) in
  length (excerpt_preview iss) ≤ 103
  ∧ (length excerpt ≤ 100 → excerpt_preview iss = excerpt)
  ∧ (100 < length excerpt →
       excerpt_preview iss = take 100 excerpt ++ lit "..."
       ∧ length (excerpt_preview iss) = 103).
Proof.
  intros excerpt. unfold excerpt_preview. fold excerpt.
  case_bool_decide as Hlong.
  - assert (length (take 100 excerpt ++ lit "...") = 103) as Hlen.
    { rewrite length_app, length_take.
      change (length (lit "...")) with 3. lia. }
    split_and!; [lia|lia|done].
  - rewrite app_nil_r. split_and!; [|by rewrite take_ge by lia|lia].
    rewrite length_take. lia.
Qed.

(** X17, at concrete inputs: a short excerpt, and one of 120 characters. *)
Lemma excerpt_preview_bounded_witness :
  let short := Issue (Some (lit "short")) None None None in
  let long := Issue (Some (replicate 120 97%N)) None None None in
  (length (lit "short") ≤ 100 ∧ excerpt_preview short = lit "short")
  ∧ (100 < length (replicate 120 97%N)
     ∧ excerpt_preview long = replicate 100 97%N ++ lit "..."
     ∧ length (excerpt_preview long) = 103).
Proof.
  intros short long.
  assert (length (lit "short") ≤ 100) as Hs by (vm_compute; lia).
  assert (100 < length (replicate 120 97%N)) as Hl by (vm_compute; lia).
  split.
  - split; [exact Hs|]. exact (proj1 (proj2 (excerpt_preview_bounded short)) Hs).
  - split; [exact Hl|]. exact (proj2 (proj2 (excerpt_preview_bounded long)) Hl).
Defined.

(** ** The annotation pattern, characterised *)

Lemma span_le (P : char → bool) s : span P s ≤ length s.
Proof. induction s as [|c s IH]; simpl; [done|]. destruct (P c); simpl; lia. Qed.

Lemma span_take_Forall (P : char → bool) s :
  Forall (λ c, P c = true) (take (span P s) s).
Proof.
  induction s as [|c s IH]; simpl; [constructor|].
  destruct (P c) eqn:Hc; simpl; by constructor.
Qed.

Lemma span_app_stop (P : char → bool) w rest :
  Forall (λ c, P c = true) w →
  match rest with [] => True | c :: _ => P c = false end →
  span P (w ++ rest) = length w.
Proof.
  induction 1 as [|c w Hc _ IH]; intros Hrest; simpl.
  - destruct rest as [|c rest]; [done|]. simpl. by rewrite Hrest.
  - by rewrite Hc, IH.
Qed.

Lemma url_match_annotation s n :
  url_match s = Some n →
  ∃ tail, s = take n s ++ tail ∧ length (take n s) = n ∧ annotation_run (take n s).
Proof.
  unfold url_match. intros H.
  destruct (after_prefix (lit "(http") _) as [s1|] eqn:Hp1; [|done].
  cbn [mbind option_bind] in H.
  destruct (after_prefix (lit "://") _) as [s3|] eqn:Hp2; [|done].
  cbn [mbind option_bind] in H.
  apply after_prefix_Some in Hp1, Hp2.
  set (ws := span isspace s) in *.
  set (opt_s := match s1 with 115%N :: _ => 1 | _ => 0 end) in *.
  set (k := span not_rparen s3) in *.
  destruct k as [|k'] eqn:Hk; [done|]. rewrite <- Hk in *.
  destruct (drop k s3) as [|c tail] eqn:Hd; [done|].
  destruct (N.eqb_spec c 41) as [->|Hne]; cycle 1.
  { repeat case_match; simplify_eq. }
  assert (n = ws + 5 + opt_s + 3 + k + 1) as Hn.
  { repeat case_match; simplify_eq; done. }
  clear H.
  assert (s3 = take k s3 ++ 41%N :: tail) as Hs3.
  { pose proof (take_drop k s3) as Htd. by rewrite Hd in Htd. }
  assert (length (take k s3) = k) as Hklen.
  { rewrite length_take. apply (f_equal length) in Hd.
    rewrite length_drop, length_cons in Hd. lia. }
  assert (s1 = take opt_s s1 ++ lit "://" ++ s3
          ∧ length (take opt_s s1) = opt_s
          ∧ (take opt_s s1 = [] ∨ take opt_s s1 = lit "s")) as (Hs1 & Holen & Ho).
  { rewrite <- Hp2, take_drop. split; [done|].
    subst opt_s. destruct s1 as [|c1 r]; [by auto|].
    destruct (N.eqb_spec c1 115) as [->|Hc1].
    - split; [done|]. by right.
    - assert (match c1 :: r with 115%N :: _ => 1 | _ => 0 end = 0) as ->.
      { repeat case_match; simplify_eq; done. }
      split; [done|]. by left. }
  assert (length (take ws s) = ws) as Hwlen.
  { rewrite length_take. pose proof (span_le isspace s). subst ws. lia. }
  assert (s = (take ws s ++ lit "(http" ++ take opt_s s1 ++ lit "://"
               ++ take k s3 ++ lit ")") ++ tail) as Hs.
  { rewrite <- (take_drop ws s) at 1. rewrite Hp1. rewrite Hs1 at 1.
    rewrite Hs3 at 1. by rewrite <- !(assoc_L (++)). }
  assert (length (take ws s ++ lit "(http" ++ take opt_s s1 ++ lit "://"
                  ++ take k s3 ++ lit ")") = n) as Hlen.
  { rewrite !length_app, Hwlen, Holen, Hklen.
    change (length (lit "(http")) with 5. change (length (lit "://")) with 3.
    change (length (lit ")")) with 1. lia. }
  assert (take n s = take ws s ++ lit "(http" ++ take opt_s s1 ++ lit "://"
                     ++ take k s3 ++ lit ")") as Htake.
  { rewrite Hs at 1. rewrite <- Hlen at 1. by rewrite take_app_length. }
  exists tail. split_and!.
  - by rewrite Htake.
  - by rewrite Htake.
  - rewrite Htake. exists (take ws s), (take opt_s s1), (take k s3).
    split_and!; [done| |done| |].
    + apply span_take_Forall.
    + intros Hnil. rewrite Hnil in Hklen. simpl in Hklen. lia.
    + eapply Forall_impl; [apply (span_take_Forall not_rparen)|].
      intros c. unfold not_rparen. rewrite negb_true_iff.
      by intros ?%N.eqb_neq.
Qed.

Lemma annotation_url_match run tail :
  annotation_run run → url_match (run ++ tail) = Some (length run).
Proof.
  intros (ws & o & u & -> & Hws & Ho & Hu & Hnp).
  assert (Forall (λ c, not_rparen c = true) u) as Hnp'.
  { eapply Forall_impl; [exact Hnp|]. intros c Hc. unfold not_rparen.
    by rewrite negb_true_iff, N.eqb_neq. }
  assert (0 < length u) as Hlen by (destruct u; [done|simpl; lia]).
  unfold url_match. rewrite <- !(assoc_L (++)).
  rewrite (span_app_stop isspace ws) by done.
  rewrite drop_app_length.
  change (lit "(http") with [40; 104; 116; 116; 112]%N.
  change (lit "://") with [58; 47; 47]%N.
  change (lit ")") with [41%N].
  destruct Ho as [->| ->]; [|change (lit "s") with [115%N]]; simpl.
  all: match goal with
       | |- context [span not_rparen ?l] =>
           replace (span not_rparen l) with (length u)
             by (symmetry; by apply span_app_stop)
       end.
  all: destruct (length u) as [|k] eqn:Hk; [lia|].
  all: rewrite <- Hk, drop_app_length.
  all: f_equal; rewrite !length_app; simpl; rewrite !length_app; simpl; lia.
Qed.

(** A match lies within the first [n] characters: cutting the string
    anywhere behind them keeps it, and lengthening the string does too. *)
Lemma url_match_take s n m :
  url_match s = Some n → n ≤ m → url_match (take m s) = Some n.
Proof.
  intros (tail & Hs & Hlen & Hrun)%url_match_annotation Hle.
  rewrite Hs, take_app_ge by lia.
  rewrite annotation_url_match by done. by rewrite Hlen.
Qed.

Lemma url_match_of_take s n m :
  url_match (take m s) = Some n → url_match s = Some n.
Proof.
  intros (tail & Hs & Hlen & Hrun)%url_match_annotation.
  rewrite <- (take_drop m s), Hs, <- (assoc_L (++)).
  rewrite annotation_url_match by done. by rewrite Hlen.
Qed.

(** X18. The annotation pattern matches at the start of a string exactly
    when the string starts with an annotation run: whitespace, then
    [(http://] or [(https://], then one or more characters other than a
    closing parenthesis, then a closing parenthesis.  The match is that
    run and nothing more. *)
Theorem url_match_characterised (s : str) (n : nat) :
  url_match s = Some n
  ↔ n ≤ length s ∧ annotation_run (take n s).
Proof.
  split.
  - intros (tail & Hs & Hlen & Hrun)%url_match_annotation.
    split; [|done]. rewrite <- Hlen. rewrite length_take. lia.
  - intros [Hle Hrun].
    rewrite <- (take_drop n s). rewrite annotation_url_match by done.
    f_equal. rewrite length_take. lia.
Qed.

(** ** The loop, iteration by iteration *)

Lemma loop_step_Some text i j out :
  loop_step text i = Some (j, out) →
  i < j ∧ i < length text
  ∧ ((∃ n, url_match (drop i text) = Some n ∧ j = i + n ∧ out = [])
     ∨ (∃ c rest, drop i text = c :: rest ∧ url_match (drop i text) = None
                  ∧ j = i + 1 ∧ out = [c])).
Proof.
  unfold loop_step. destruct (drop i text) as [|c rest] eqn:Hd; [done|].
  apply drop_cons_lookup in Hd as Hlt. destruct Hlt as [_ Hlt].
  destruct (url_match (c :: rest)) as [n|] eqn:Hm; intros [= <- <-].
  - pose proof (url_match_pos _ _ Hm). split_and!; [lia|done|]. left. by eauto.
  - split_and!; [lia|done|]. right. by eauto 6.
Qed.

Lemma loop_step_None text i : loop_step text i = None ↔ length text ≤ i.
Proof.
  unfold loop_step. split.
  - destruct (drop i text) as [|c rest] eqn:Hd; [intros _; by apply drop_nil_inv|].
    by destruct (url_match _).
  - intros Hle. by rewrite drop_ge.
Qed.

Lemma run_stopped k text i : length text ≤ i → run k text i = (i, []).
Proof.
  intros Hle%loop_step_None. destruct k as [|k]; [done|]. simpl. by rewrite Hle.
Qed.

Lemma run_cursor_le k text i : i ≤ (run k text i).1.
Proof.
  revert i. induction k as [|k IH]; intros i; simpl; [done|].
  destruct (loop_step text i) as [[j out]|] eqn:Hstep; [|done]. simpl.
  apply loop_step_Some in Hstep as (Hlt & _). specialize (IH j). lia.
Qed.

Lemma run_add k1 k2 text i :
  run (k1 + k2) text i
  = ((run k2 text (run k1 text i).1).1,
     (run k1 text i).2 ++ (run k2 text (run k1 text i).1).2).
Proof.
  revert i. induction k1 as [|k1 IH]; intros i.
  { simpl. by destruct (run k2 text i). }
  cbn [Nat.add run]. destruct (loop_step text i) as [[j out]|] eqn:Hstep.
  - rewrite IH. simpl. by rewrite (assoc_L (++)).
  - simpl. apply loop_step_None in Hstep. by rewrite run_stopped.
Qed.

Lemma run_snoc k text i0 i s j out :
  run k text i0 = (i, s) → loop_step text i = Some (j, out) →
  run (S k) text i0 = (j, s ++ out).
Proof.
  intros Hrun Hstep. rewrite <- Nat.add_1_r, run_add, Hrun. simpl.
  rewrite Hstep. simpl. by rewrite app_nil_r.
Qed.

(** Two runs from the same cursor that have both left the text have
    appended the same characters. *)
Lemma run_end_unique k1 k2 text i j1 j2 o1 o2 :
  run k1 text i = (j1, o1) → run k2 text i = (j2, o2) →
  length text ≤ j1 → length text ≤ j2 → o1 = o2.
Proof.
  assert (∀ k1 k2 j1 j2 o1 o2, k1 ≤ k2 →
            run k1 text i = (j1, o1) → run k2 text i = (j2, o2) →
            length text ≤ j1 → o1 = o2) as Hle.
  { clear. intros k1 k2 j1 j2 o1 o2 Hk H1 H2 Hend.
    replace k2 with (k1 + (k2 - k1)) in H2 by lia.
    rewrite run_add, H1 in H2. simpl in H2.
    rewrite run_stopped in H2 by done. simpl in H2.
    rewrite app_nil_r in H2. congruence. }
  intros H1 H2 He1 He2. destruct (decide (k1 ≤ k2)).
  - by eapply (Hle k1 k2).
  - symmetry. eapply (Hle k2 k1); [lia|done..].
Qed.

(** The result of [build_position_map] in terms of [run]: the logical text
    is what some number of iterations appends before the cursor leaves the
    text, and every recorded offset is a cursor of the loop, reached with
    the characters before it and left, one iteration later, with its own. *)
Lemma build_position_map_run text :
  (∃ k i, run k text 0 = (i, (build_position_map text).1) ∧ length text ≤ i)
  ∧ ∀ q j,
      (build_position_map text).2 !! q = Some j →
      ∃ k, run k text 0 = (j, take q (build_position_map text).1)
           ∧ run (S k) text 0 = (j + 1, take (S q) (build_position_map text).1).
Proof.
  destruct (build_position_map_invariant
              (λ i s m,
                 (∃ k, run k text 0 = (i, s))
                 ∧ length s = length m
                 ∧ ∀ q j, m !! q = Some j →
                     ∃ k, run k text 0 = (j, take q s)
                          ∧ run (S k) text 0 = (j + 1, take (S q) s)) text)
    as (i & Hi & (k & Hk) & _ & Hall).
  - split_and!; [by exists 0|done|]. intros q j Hq. by rewrite lookup_nil in Hq.
  - intros i s m n ((k & Hk) & Hlen & Hall) Hm Hlt. split_and!; [|done..].
    exists (S k). rewrite <- (app_nil_r s). eapply run_snoc; [done|].
    unfold loop_step. rewrite Hm.
    destruct (drop i text) eqn:Hd; [|done].
    apply drop_nil_inv in Hd. lia.
  - intros i s m c rest ((k & Hk) & Hlen & Hall) Hd Hm.
    assert (run (S k) text 0 = (i + 1, s ++ [c])) as Hk'.
    { eapply run_snoc; [done|]. unfold loop_step. by rewrite Hm, Hd. }
    split_and!; [by eauto|by rewrite !length_app, Hlen|].
    intros q j Hq. apply lookup_app_Some in Hq as [Hq|[Hge Hq]].
    + pose proof (lookup_lt_Some _ _ _ Hq) as Hlt.
      destruct (Hall q j Hq) as (k' & H1 & H2). exists k'.
      by rewrite !take_app_le by lia.
    + apply list_lookup_singleton_Some in Hq as [Hq <-].
      assert (q = length s) as -> by lia. exists k.
      rewrite take_app_length, take_ge by (rewrite length_app; simpl; lia).
      done.
  - split; [by eauto|done].
Qed.

Lemma drop_slice (text : str) a e i :
  a ≤ i → i ≤ e →
  drop (i - a) (take (e - a) (drop a text)) = take (e - i) (drop i text).
Proof.
  intros Hai Hie.
  rewrite (take_drop_commute text (e - a) a), drop_drop.
  replace (a + (e - a)) with e by lia. replace (a + (i - a)) with i by lia.
  rewrite (take_drop_commute text (e - i) i). by replace (i + (e - i)) with e by lia.
Qed.

(** A run inside the text is also a run of the slice that it spans. *)
Lemma run_slice k text a e i out :
  a ≤ i → e ≤ length text →
  run k text i = (e, out) →
  run k (take (e - a) (drop a text)) (i - a) = (e - a, out).
Proof.
  intros Hai He. revert i out Hai.
  induction k as [|k IH]; intros i out Hai; [by intros [= <- <-]|].
  cbn [run]. destruct (loop_step text i) as [[j o]|] eqn:Hstep.
  - set (r := run k text j). intros Hrun.
    assert (r = (e, r.2) ∧ out = o ++ r.2) as [Hr ->].
    { destruct r as [e' o']. simpl in *. by simplify_eq. }
    pose proof (run_cursor_le k text j) as Hje. fold r in Hje.
    rewrite Hr in Hje. simpl in Hje.
    apply loop_step_Some in Hstep as (Hij & Hlt & Hcase).
    assert (loop_step (take (e - a) (drop a text)) (i - a) = Some (j - a, o))
      as ->.
    { unfold loop_step. rewrite drop_slice by lia.
      destruct Hcase as [(n & Hm & -> & ->)|(c & rest & Hd & Hm & -> & ->)].
      - rewrite (url_match_take _ n) by (done || lia).
        destruct (drop i text) as [|c rest] eqn:Hd.
        { apply drop_nil_inv in Hd. lia. }
        destruct (e - i) as [|d] eqn:Hei; [lia|]. simpl.
        do 2 f_equal. lia.
      - rewrite Hd. destruct (e - i) as [|d] eqn:Hei; [lia|].
        rewrite <- Hei, <- Hd.
        destruct (url_match (take (e - i) (drop i text))) as [n|] eqn:Hm'.
        { apply url_match_of_take in Hm'. congruence. }
        rewrite Hd, Hei. simpl. do 2 f_equal. lia. }
    rewrite (IH j r.2) by (done || lia). done.
  - intros [= <- <-]. apply loop_step_None in Hstep.
    assert (loop_step (take (i - a) (drop a text)) (i - a) = None) as ->; [|done].
    apply loop_step_None. rewrite length_take, length_drop. lia.
Qed.

Lemma locate_fallback_inv original_text excerpt s e :
  find original_text excerpt = None →
  locate original_text (build_position_map original_text).1
    (build_position_map original_text).2 excerpt
  = Ok (Some s, Some e) →
  ∃ p b,
    occurs_at (build_position_map original_text).1
      (build_position_map excerpt).1 p
    ∧ 0 < length (build_position_map excerpt).1
    ∧ (build_position_map original_text).2 !! p = Some s
    ∧ (build_position_map original_text).2
      !! (p + length (build_position_map excerpt).1 - 1) = Some b
    ∧ e = b + 1.
Proof.
  intros Hex Hl.
  destruct (find (build_position_map original_text).1
              (build_position_map excerpt).1) as [p|] eqn:Hfb; cycle 1.
  { by rewrite (locate_not_found original_text excerpt Hex Hfb) in Hl. }
  destruct (decide (length (build_position_map excerpt).1 = 0)) as [HL|HL].
  { apply nil_length_inv in HL.
    by rewrite (locate_fallback_empty original_text excerpt Hex HL) in Hl. }
  destruct (locate_fallback original_text excerpt p Hex Hfb)
    as (a & b & Ha & Hb & Hl'); [lia|].
  rewrite Hl' in Hl. injection Hl as <- <-.
  apply find_Some in Hfb as (_ & Hocc & _).
  exists p, b. split_and!; [done|lia|done..].
Qed.

(** The fallback case of the next theorem. *)
Lemma fallback_slice original_text (excerpt : str) (s e : nat) :
  find original_text excerpt = None →
  locate original_text (build_position_map original_text).1
    (build_position_map original_text).2 excerpt
  = Ok (Some s, Some e) →
  (build_position_map (take (e - s) (drop s original_text))).1
  = (build_position_map excerpt).1.
Proof.
  intros Hex Hl.
  destruct (locate_fallback_inv _ _ _ _ Hex Hl) as (p & b & Hocc & HL & Ha & Hb & ->).
  set (logical := (build_position_map original_text).1) in *.
  set (el := (build_position_map excerpt).1) in *.
  pose proof (pos_map_bound _ _ _ Hb) as Hblt.
  assert (s ≤ b) as Hsb.
  { eapply (pos_map_increasing original_text p); [|exact Ha|exact Hb]. lia. }
  destruct (build_position_map_run original_text) as [_ Hcursors].
  destruct (Hcursors _ _ Ha) as (ka & Hka & _).
  destruct (Hcursors _ _ Hb) as (kb & _ & Hkb).
  fold logical in Hka, Hkb.
  replace (S (p + length el - 1)) with (p + length el) in Hkb by lia.
  (* the iterations between the two cursors append the excerpt *)
  assert (ka ≤ S kb) as Hk.
  { destruct (decide (ka ≤ S kb)) as [|Hgt]; [done|]. exfalso.
    replace ka with (S kb + (ka - S kb)) in Hka by lia.
    rewrite run_add, Hkb in Hka. simpl in Hka.
    pose proof (run_cursor_le (ka - S kb) original_text (b + 1)) as Hle.
    injection Hka as Hcur _. lia. }
  assert (run (S kb - ka) original_text s = (b + 1, el)) as Hmid.
  { replace (S kb) with (ka + (S kb - ka)) in Hkb by lia.
    rewrite run_add, Hka in Hkb. simpl in Hkb.
    destruct (run (S kb - ka) original_text s) as [j mid]. simpl in Hkb.
    injection Hkb as -> Hout. f_equal.
    rewrite <- (take_take_drop logical p (length el)) in Hout.
    apply app_inv_head in Hout. rewrite Hout. exact Hocc. }
  apply (run_slice _ _ s) in Hmid; [|done|lia].
  (* and they are all the iterations of the loop on the slice *)
  destruct (build_position_map_run (take (b + 1 - s) (drop s original_text)))
    as [(k & i & Hrun & Hend) _].
  rewrite Nat.sub_diag in Hmid.
  eapply run_end_unique; [exact Hrun|exact Hmid|done|].
  rewrite length_take, length_drop. lia.
Qed.

(** X19. Whichever strategy located it, the highlighted slice
    [original_text[s:e]] of a located excerpt reads, once
    [build_position_map] has stripped its annotations, exactly as the
    stripped excerpt; when the exact search succeeded, the slice is the
    excerpt itself. *)
Theorem located_slice_strips_to_excerpt original_text (excerpt : str) (s e : nat) :
  locate original_text (build_position_map original_text).1
    (build_position_map original_text).2 excerpt
  = Ok (Some s, Some e) →
  (build_position_map (take (e - s) (drop s original_text))).1
  = (build_position_map excerpt).1
  ∧ (is_Some (find original_text excerpt) →
     take (e - s) (drop s original_text) = excerpt).
Proof.
  intros Hl. destruct (find original_text excerpt) as [q|] eqn:Hex.
  - rewrite (locate_exact _ _ _ _ _ Hex) in Hl. injection Hl as <- <-.
    apply find_Some in Hex as (_ & Hocc & _). unfold occurs_at in Hocc.
    replace (q + length excerpt - q) with (length excerpt) by lia.
    rewrite Hocc. done.
  - split; [by apply fallback_slice|]. by intros [? ?].
Qed.

(** X19, at a concrete input: the canonical annotated sentence inside a
    longer text. *)
Lemma located_slice_strips_to_excerpt_witness :
  let original_text :=
    lit "He said Paris is the capital (https://example.com/1). Really." in
  let excerpt := lit "Paris is the capital." in
  locate original_text (build_position_map original_text).1
    (build_position_map original_text).2 excerpt
  = Ok (Some 8, Some 53)
  ∧ take (53 - 8) (drop 8 original_text)
    = lit "Paris is the capital (https://example.com/1)."
  ∧ (build_position_map (take (53 - 8) (drop 8 original_text))).1
    = (build_position_map excerpt).1.
Proof.
  intros original_text excerpt.
  assert (locate original_text (build_position_map original_text).1
            (build_position_map original_text).2 excerpt
          = Ok (Some 8, Some 53)) as Hl by (by vm_compute).
  split; [exact Hl|]. split; [by vm_compute|].
  exact (proj1 (located_slice_strips_to_excerpt original_text excerpt 8 53 Hl)).
Defined.

(** ** Annotation runs in the text *)

(** X20. A text that is nothing but an annotation run strips to the empty
    string.  An excerpt of that form is therefore located only if it occurs
    verbatim in the original text: the fallback rejects its empty logical
    form. *)
Theorem annotation_only_excerpt (run : str) :
  annotation_run run →
  build_position_map run = ([], [])
  ∧ ∀ original_text,
      find original_text run = None →
      locate original_text (build_position_map original_text).1
        (build_position_map original_text).2 run
      = Ok (None, None).
Proof.
  intros Hrun.
  assert (url_match run = Some (length run)) as Hmatch.
  { pose proof (annotation_url_match run [] Hrun) as H.
    by rewrite app_nil_r in H. }
  assert (build_position_map run = ([], [])) as Hempty.
  { destruct (build_position_map_invariant
                (λ i s m, s = [] ∧ m = [] ∧ (i = 0 ∨ length run ≤ i)) run)
      as (i & _ & Hs & Hm & _).
    - auto.
    - intros i s m n (-> & -> & [->|Hi]) Hm Hlt; [|lia].
      rewrite drop_0, Hmatch in Hm. injection Hm as <-. auto with lia.
    - intros i s m c rest (-> & -> & [->|Hi]) Hd Hm.
      + rewrite drop_0 in Hm. congruence.
      + rewrite drop_ge in Hd by done. done.
    - destruct (build_position_map run) as [s m]. simpl in *. by subst. }
  split; [done|]. intros original_text Hex.
  apply locate_fallback_empty; [done|]. by rewrite Hempty.
Qed.

(** X20, at a concrete input. *)
Lemma annotation_only_excerpt_witness :
  annotation_run (lit " (https://example.com/1)")
  ∧ build_position_map (lit " (https://example.com/1)") = ([], [])
  ∧ locate (lit "Paris.") (build_position_map (lit "Paris.")).1
      (build_position_map (lit "Paris.")).2 (lit " (https://example.com/1)")
    = Ok (None, None).
Proof.
  assert (annotation_run (lit " (https://example.com/1)")) as Hrun.
  { exists (lit " "), (lit "s"), (lit "example.com/1").
    split_and!; [by vm_compute| |by right|done|].
    - repeat constructor.
    - apply Forall_forall. intros c Hc%list_elem_of_In ->.
      vm_compute in Hc. intuition discriminate. }
  destruct (annotation_only_excerpt _ Hrun) as [Hempty Hloc].
  split; [exact Hrun|]. split; [exact Hempty|].
  apply Hloc. by vm_compute.
Defined.

Lemma first_lparen_prefix (ws d x y : str) :
  ws ++ 40%N :: x = d ++ y → 40%N ∉ d → ∃ ws', ws = d ++ ws'.
Proof.
  revert ws. induction d as [|c d IH]; intros ws Heq Hno; [by eauto|].
  destruct ws as [|c' ws]; simpl in Heq.
  - injection Heq as <- _. destruct Hno. by left.
  - injection Heq as -> Heq.
    destruct (IH ws Heq) as [ws' ->]; [|by eauto].
    intros Hin. apply Hno. by right.
Qed.

(** Inside visible text that has no parenthesis and does not end in
    whitespace, the pattern does not match. *)
Lemma url_match_in_visible (pre rest : str) i :
  40%N ∉ pre →
  (∀ c, last pre = Some c → isspace c = false) →
  i < length pre →
  url_match (drop i pre ++ rest) = None.
Proof.
  intros Hno Hlast Hi.
  destruct (url_match (drop i pre ++ rest)) as [n|] eqn:Hm; [exfalso|done].
  apply url_match_annotation in Hm
    as (tail & Hs & _ & ws & o & u & Hrun & Hws & _).
  rewrite Hrun in Hs. rewrite <- !(assoc_L (++)) in Hs.
  change (lit "(http") with ([40%N] ++ lit "http") in Hs.
  rewrite <- !(assoc_L (++)) in Hs. simpl in Hs.
  symmetry in Hs. apply first_lparen_prefix in Hs as [ws' ->].
  - apply Forall_app in Hws as [Hws _].
    destruct (last pre) as [c|] eqn:Hl.
    + specialize (Hlast c eq_refl).
      assert (c ∈ drop i pre) as Hin.
      { apply last_Some in Hl as [l' ->].
        rewrite drop_app_le by (rewrite length_app in Hi; simpl in Hi; lia).
        apply elem_of_app. right. by left. }
      rewrite Forall_forall in Hws. specialize (Hws c Hin). congruence.
    + apply last_None in Hl. subst pre. simpl in Hi. lia.
  - intros Hin. apply Hno.
    eapply sublist_subseteq; [apply sublist_drop|exact Hin].
Qed.

(** X21. An annotation run that follows visible text is elided, with the
    whitespace before its parenthesis, and nothing else is: if [pre] has no
    opening parenthesis and does not end in whitespace, the logical text of
    [pre ++ run ++ post] is [pre] followed by the logical text of [post]. *)
Theorem annotation_elided (pre run_ post : str) :
  40%N ∉ pre →
  (∀ c, last pre = Some c → isspace c = false) →
  annotation_run run_ →
  (build_position_map (pre ++ run_ ++ post)).1
  = pre ++ (build_position_map post).1.
Proof.
  intros Hno Hlast Hrun. set (text := pre ++ run_ ++ post).
  assert (∀ i, i < length pre → drop i text = drop i pre ++ run_ ++ post) as Hin.
  { intros i Hi. unfold text. by rewrite drop_app_le by lia. }
  assert (drop (length pre) text = run_ ++ post) as Hat
    by (unfold text; by rewrite drop_app_length).
  assert (∀ i', drop (length pre + length run_ + i') text = drop i' post) as Hafter.
  { intros i'. unfold text. rewrite (assoc_L (++)).
    rewrite drop_app_ge by (rewrite length_app; lia). f_equal.
    rewrite length_app. lia. }
  destruct (build_position_map_invariant
              (λ i s m,
                 (i ≤ length pre ∧ s = take i pre)
                 ∨ ∃ k i' s', run k post 0 = (i', s')
                              ∧ i = length pre + length run_ + i'
                              ∧ s = pre ++ s') text)
    as (i & Hend & [[Hle Hs]|(k & i' & s' & Hk & -> & Hs)]).
  - left. split; [lia|done].
  - intros i s m n [[Hle ->]|(k & i' & s' & Hk & -> & ->)] Hm Hlt.
    + destruct (decide (i = length pre)) as [->|Hne].
      * rewrite Hat, (annotation_url_match _ _ Hrun) in Hm. injection Hm as <-.
        right. exists 0, 0, []. split_and!; [done|lia|].
        by rewrite take_ge, app_nil_r by lia.
      * rewrite Hin, url_match_in_visible in Hm by (done || lia). done.
    + right. rewrite Hafter in Hm. exists (S k), (i' + n), s'.
      split_and!; [|lia|done]. rewrite <- (app_nil_r s').
      eapply run_snoc; [done|]. unfold loop_step. rewrite Hm.
      destruct (drop i' post) eqn:Hd; [|done].
      rewrite <- Hafter in Hd. apply drop_nil_inv in Hd. lia.
  - intros i s m c rest [[Hle ->]|(k & i' & s' & Hk & -> & ->)] Hd Hm.
    + destruct (decide (i = length pre)) as [->|Hne].
      * rewrite Hat, (annotation_url_match _ _ Hrun) in Hm. done.
      * left. rewrite Hin in Hd by lia. split; [lia|].
        destruct (drop i pre) as [|c' rest'] eqn:Hd'.
        { apply drop_nil_inv in Hd'. lia. }
        injection Hd as -> _. apply drop_cons_lookup in Hd' as [Hc _].
        rewrite Nat.add_1_r. by erewrite take_S_r.
    + right. rewrite Hafter in Hd, Hm. exists (S k), (i' + 1), (s' ++ [c]).
      split_and!; [|lia|by rewrite (assoc_L (++))].
      eapply run_snoc; [done|]. unfold loop_step. by rewrite Hm, Hd.
  - (* the cursor cannot leave the text before the annotation *)
    exfalso. unfold text in Hend. rewrite !length_app in Hend.
    destruct Hrun as (ws & o & u & -> & _). rewrite !length_app in Hend.
    change (length (lit "(http")) with 5 in Hend. lia.
  - rewrite Hs. f_equal.
    destruct (build_position_map_run post) as [(k' & j & Hk' & Hj) _].
    eapply run_end_unique; [exact Hk|exact Hk'| |done].
    unfold text in Hend. rewrite !length_app in Hend. lia.
Qed.

(** X21, at a concrete input: the canonical annotated sentence. *)
Lemma annotation_elided_witness :
  let pre := lit "Paris is the capital" in
  let run_ := lit " (https://example.com/1)" in
  (40%N ∉ pre)
  ∧ (∀ c, last pre = Some c → isspace c = false)
  ∧ annotation_run run_
  ∧ (build_position_map (pre ++ run_ ++ lit ".")).1
    = lit "Paris is the capital.".
Proof.
  intros pre run_.
  assert (40%N ∉ pre) as Hno.
  { intros Hin%list_elem_of_In. vm_compute in Hin. intuition discriminate. }
  assert (∀ c, last pre = Some c → isspace c = false) as Hlast.
  { intros c Hc. vm_compute in Hc. injection Hc as <-. reflexivity. }
  assert (annotation_run run_) as Hrun.
  { exists (lit " "), (lit "s"), (lit "example.com/1").
    split_and!; [by vm_compute| |by right|done|].
    - repeat constructor.
    - apply Forall_forall. intros c Hc%list_elem_of_In ->.
      vm_compute in Hc. intuition discriminate. }
  split; [exact Hno|]. split; [exact Hlast|]. split; [exact Hrun|].
  rewrite (annotation_elided pre run_ (lit ".") Hno Hlast Hrun).
  by vm_compute.
Defined.
